(** * Resource-binding mapping for one shader stage (glslang, iomapper.cpp)

    A shallow embedding of [glslang/MachineIndependent/iomapper.cpp]:
    the entry record [TVarEntryInfo] with its two orders, the collecting
    traverser [TVarGatherTraverser], the write-back traverser
    [TVarSetTraverser], the function object [TResolverAdaptor] and the
    driver [TIoMapper::addStage], followed by the properties established
    about them. *)

From stdpp Require Import base numbers sorting strings gmap functions list.

#[local] Set Warnings "-clear-no-such-hyp".

Local Open Scope Z_scope.

(** ** Declarations used by the file but made in its headers *)

(** Modelled from the spec: the shader stage tag handed through to the
    resolver (declared in the public header, not in iomapper.cpp). *)
Inductive EShLanguage :=
| EShLangVertex | EShLangTessControl | EShLangTessEvaluation
| EShLangGeometry | EShLangFragment | EShLangCompute.

(** Modelled from the spec: the storage class of a qualifier.  The file
    only ever tests for [EvqUniform]. *)
Inductive TStorageQualifier :=
| EvqTemporary | EvqGlobal | EvqConst | EvqVaryingIn | EvqVaryingOut
| EvqUniform | EvqBuffer | EvqShared.

Global Instance TStorageQualifier_eq_dec : EqDecision TStorageQualifier.
Proof. solve_decision. Defined.

(** The qualifier record, of which the file reads the storage class and
    writes [layoutBinding] and [layoutSet].  The record declares these two
    as unsigned bit-fields, 16 bits for the binding and 7 bits for the set;
    a field holds its value as a number below two to the width. *)
Record TQualifier := mkQualifier {
  storage : TStorageQualifier;
  layoutBinding : Z;
  layoutSet : Z
}.

Definition layoutBindingBits : Z := 16.
Definition layoutSetBits : Z := 7.

(** What an unsigned bit-field of [width] bits holds after an [int] is
    assigned to it: the value modulo two to the width. *)
Definition toBitField (width : Z) (v : Z) : Z := v `mod` 2 ^ width.
Global Arguments toBitField : simpl never.

(** The presence predicates [hasBinding()] and [hasSet()] of a qualifier
    are defined in a header; the file only calls them, so they are taken
    as an interface. *)
Class TQualifierPredicates := {
  hasBinding : TQualifier → bool;
  hasSet : TQualifier → bool
}.

(** Modelled from the spec: a type, of which the file touches only the
    qualifier; the rest is carried along as an opaque tag. *)
Record TType := mkType {
  basicType : nat;
  qualifier : TQualifier
}.

(** A symbol occurrence node of the tree. *)
Record TIntermSymbol := mkSymbol {
  getId : Z;
  getName : string;
  getType : TType
}.

Definition getQualifier (s : TIntermSymbol) : TQualifier := qualifier (getType s).

(** [base->getWritableType().getQualifier().layoutBinding = v], the [int]
    [v] being converted to the 16-bit field. *)
Definition setLayoutBinding (v : Z) (s : TIntermSymbol) : TIntermSymbol :=
  mkSymbol (getId s) (getName s)
    (mkType (basicType (getType s))
       (mkQualifier (storage (getQualifier s))
          (toBitField layoutBindingBits v) (layoutSet (getQualifier s)))).

(** [base->getWritableType().getQualifier().layoutSet = v], the [int] [v]
    being converted to the 7-bit field. *)
Definition setLayoutSet (v : Z) (s : TIntermSymbol) : TIntermSymbol :=
  mkSymbol (getId s) (getName s)
    (mkType (basicType (getType s))
       (mkQualifier (storage (getQualifier s))
          (layoutBinding (getQualifier s)) (toBitField layoutSetBits v))).

(** Addresses of symbol nodes ([TIntermSymbol*]). *)
Definition ptr := nat.

(** Modelled from the spec: operators of aggregate nodes; the traversal
    distinguishes function definitions and function calls. *)
Inductive TOperator :=
| EOpNull | EOpSequence | EOpLinkerObjects | EOpParameters
| EOpFunction | EOpFunctionCall.

Global Instance TOperator_eq_dec : EqDecision TOperator.
Proof. solve_decision. Defined.

(** Modelled from the spec: the tree.  A leaf refers to a symbol node by
    address; every interior node is an aggregate with an operator, a name
    (of the function defined or called) and its children in order. *)
Local Unset Elimination Schemes.
Inductive TIntermNode :=
| TIntermSymbolRef (base : ptr)
| TIntermAggregate (op : TOperator) (name : string) (sequence : list TIntermNode).
Local Set Elimination Schemes.

(** Induction over trees, with the hypothesis for every child of an
    aggregate. *)

Section TreeInduction.
Variable P : TIntermNode → Prop.
Hypothesis Hsymbol : ∀ base, P (TIntermSymbolRef base).
Hypothesis Haggregate : ∀ op name sequence,
  Forall P sequence → P (TIntermAggregate op name sequence).

Fixpoint TIntermNode_tree_ind (node : TIntermNode) : P node :=
  match node with
  | TIntermSymbolRef base => Hsymbol base
  | TIntermAggregate op name sequence =>
      Haggregate op name sequence
        ((fix children (l : list TIntermNode) : Forall P l :=
            match l with
            | [] => List.Forall_nil P
            | n :: l' => List.Forall_cons P n l' (TIntermNode_tree_ind n) (children l')
            end) sequence)
  end.
End TreeInduction.

(** Modelled from the spec: the program representation.  [symbols] is the
    store of symbol nodes the tree's leaves point into; it is the only part
    of the program this file writes. *)
Record TIntermediate := mkIntermediate {
  getNumEntryPoints : Z;
  isRecursive : bool;
  getTreeRoot : option TIntermNode;
  getEntryPointMangledName : string;
  symbols : ptr → TIntermSymbol
}.

Definition setSymbols (m : ptr → TIntermSymbol) (i : TIntermediate) : TIntermediate :=
  mkIntermediate (getNumEntryPoints i) (isRecursive i) (getTreeRoot i)
    (getEntryPointMangledName i) m.

(** Modelled from the spec: the diagnostics sink, as the list of messages
    sent to its [info] channel, oldest first. *)
Inductive TPrefixType :=
| EPrefixNone | EPrefixWarning | EPrefixError | EPrefixInternalError
| EPrefixUnimplemented | EPrefixNote.

Record TInfoSink := mkInfoSink {
  info : list (TPrefixType * string)
}.

Definition message (p : TPrefixType) (s : string) (sink : TInfoSink) : TInfoSink :=
  mkInfoSink (info sink ++ [(p, s)]).

(** ** TVarEntryInfo *)

Record TVarEntryInfo := mkEntry {
  id : Z;
  symbol : ptr;
  live : bool;
  newBinding : Z;
  newSet : Z
}.

Global Instance TVarEntryInfo_eq_dec : EqDecision TVarEntryInfo.
Proof. solve_decision. Defined.

(** [operator==] *)
Definition operator_eq (l r : TVarEntryInfo) : bool := bool_decide (id l = id r).

(** [operator<] *)
Definition operator_lt (l r : TVarEntryInfo) : bool := bool_decide (id l < id r).

(** [TOrderByPriority::operator()]; the two qualifiers are read through the
    entries' [symbol] pointers. *)
Definition TOrderByPriority `{TQualifierPredicates}
    (mem : ptr → TIntermSymbol) (l r : TVarEntryInfo) : bool :=
  let lq := getQualifier (mem (symbol l)) in
  let rq := getQualifier (mem (symbol r)) in
  if hasBinding lq then
    if hasBinding rq then
      if hasSet lq then
        if negb (hasSet rq) then true else bool_decide (id l < id r)
      else if hasSet rq then false
      else bool_decide (id l < id r)
    else true
  else if hasBinding rq then false
  else
    if hasSet lq then
      if negb (hasSet rq) then true else bool_decide (id l < id r)
    else if hasSet rq then false
    else bool_decide (id l < id r).

Abbreviation TVarLiveMap := (list TVarEntryInfo).

(** ** Tree traversal *)

(** Modelled from the spec: [node->traverse(it)] for a pre-order traverser.
    A leaf calls the traverser's [visitSymbol]; an aggregate calls its
    [visitAggregate] and then traverses the children first to last.  [S] is
    everything the traverser can change. *)
Fixpoint traverse {S : Type}
    (visitAggregate : TOperator → string → S → S)
    (visitSymbol : ptr → S → S)
    (node : TIntermNode) (s : S) : S :=
  match node with
  | TIntermSymbolRef base => visitSymbol base s
  | TIntermAggregate op name sequence =>
      fold_left (λ s' child, traverse visitAggregate visitSymbol child s')
        sequence (visitAggregate op name s)
  end.

Definition getSequence (node : TIntermNode) : list TIntermNode :=
  match node with
  | TIntermAggregate _ _ sequence => sequence
  | TIntermSymbolRef _ => []
  end.

(** Modelled from the spec: the state of a [TLiveTraverser].  [functions]
    is the work list of function bodies still to visit, used as a stack:
    the head of the list is [functions.back()]. *)
Record TLiveTraverser := mkLiveTraverser {
  traverseAll : bool;
  functions : list TIntermNode;
  liveFunctions : gset string
}.

Module TLiveTraverser.

Definition isFunction (name : string) (candidate : TIntermNode) : bool :=
  match candidate with
  | TIntermAggregate op n _ => bool_decide (op = EOpFunction) && bool_decide (n = name)
  | TIntermSymbolRef _ => false
  end.

Definition globals (intermediate : TIntermediate) : list TIntermNode :=
  match getTreeRoot intermediate with
  | Some root => getSequence root
  | None => []
  end.

(** Modelled from the spec: find the function of that name among the
    children of the root, and push its subtree on the work list. *)
Definition pushFunction (intermediate : TIntermediate) (name : string)
    (it : TLiveTraverser) : TLiveTraverser :=
  match List.find (isFunction name) (globals intermediate) with
  | Some candidate =>
      mkLiveTraverser (traverseAll it) (candidate :: functions it) (liveFunctions it)
  | None => it
  end.

(** Modelled from the spec: a called function is pushed the first time a
    call to it is seen, so each function body is visited once. *)
Definition addFunctionCall (intermediate : TIntermediate) (name : string)
    (it : TLiveTraverser) : TLiveTraverser :=
  if decide (name ∈ liveFunctions it) then it
  else pushFunction intermediate name
         (mkLiveTraverser (traverseAll it) (functions it) ({[ name ]} ∪ liveFunctions it)).

Definition visitAggregate (intermediate : TIntermediate) (op : TOperator)
    (name : string) (it : TLiveTraverser) : TLiveTraverser :=
  if negb (traverseAll it) && bool_decide (op = EOpFunctionCall)
  then addFunctionCall intermediate name it
  else it.

End TLiveTraverser.

(** ** TVarGatherTraverser *)

(** [std::lower_bound(begin, end, ent)] under [operator<]: the position of
    the first element that is not less than [ent], which is what the binary
    search returns on a range sorted by id. *)
Fixpoint lower_bound (varLiveList : TVarLiveMap) (ent : TVarEntryInfo) : nat :=
  match varLiveList with
  | [] => 0%nat
  | e :: rest => if operator_lt e ent then S (lower_bound rest ent) else 0%nat
  end.

(** [v.insert(at, ent)] *)
Definition vector_insert (at_ : nat) (ent : TVarEntryInfo) (v : TVarLiveMap) : TVarLiveMap :=
  take at_ v ++ ent :: drop at_ v.

Definition setLive (b : bool) (e : TVarEntryInfo) : TVarEntryInfo :=
  mkEntry (id e) (symbol e) b (newBinding e) (newSet e).

Module TVarGatherTraverser.

(** The traverser proper and the list it holds by reference. *)
Definition state : Type := TLiveTraverser * TVarLiveMap.

(** [visitSymbol].  The entry is built by the aggregate initialiser
    [{ base->getId(), base, !traverseAll }], which leaves [newBinding] and
    [newSet] zero. *)
Definition visitSymbol (intermediate : TIntermediate) (base : ptr)
    (st : state) : state :=
  let '(it, varLiveList) := st in
  let sym := symbols intermediate base in
  if decide (storage (getQualifier sym) = EvqUniform) then
    let ent := mkEntry (getId sym) base (negb (traverseAll it)) 0 0 in
    let at_ := lower_bound varLiveList ent in
    match varLiveList !! at_ with
    | Some e =>
        if operator_eq e ent
        then (it, <[at_ := setLive (negb (traverseAll it)) e]> varLiveList)
        else (it, vector_insert at_ ent varLiveList)
    | None => (it, vector_insert at_ ent varLiveList)
    end
  else st.

Definition visitAggregate (intermediate : TIntermediate) (op : TOperator)
    (name : string) (st : state) : state :=
  (TLiveTraverser.visitAggregate intermediate op name st.1, st.2).

(** [node->traverse(&it)] for a gathering traverser. *)
Definition traverse (intermediate : TIntermediate) (node : TIntermNode)
    (st : state) : state :=
  traverse (visitAggregate intermediate) (visitSymbol intermediate) node st.

End TVarGatherTraverser.

(** ** TVarSetTraverser *)

(** [std::find(begin, end, ent)] under [operator==]; [None] is [end()]. *)
Definition std_find (varLiveList : TVarLiveMap) (ent : TVarEntryInfo) : option TVarEntryInfo :=
  List.find (λ e, operator_eq e ent) varLiveList.

Definition nullptr : ptr := 0%nat.

Module TVarSetTraverser.

(** [visitSymbol]; the probe [{ base->getId() }] has every other member
    zero, and only its id is looked at. *)
Definition visitSymbol (varLiveList : TVarLiveMap) (base : ptr)
    (mem : ptr → TIntermSymbol) : ptr → TIntermSymbol :=
  let ent := mkEntry (getId (mem base)) nullptr false 0 0 in
  match std_find varLiveList ent with
  | None => mem
  | Some at_ =>
      if negb (operator_eq at_ ent) then mem
      else
        let mem1 :=
          if decide (newBinding at_ ≠ -1)
          then <[base := setLayoutBinding (newBinding at_) (mem base)]> mem
          else mem in
        if decide (newSet at_ ≠ -1)
        then <[base := setLayoutSet (newSet at_) (mem1 base)]> mem1
        else mem1
  end.

(** [node->traverse(&it)]; constructed with [traverseAll = true], so
    aggregates are passed through. *)
Definition traverse (varLiveList : TVarLiveMap) (node : TIntermNode)
    (mem : ptr → TIntermSymbol) : ptr → TIntermSymbol :=
  traverse (λ _ _ m, m) (visitSymbol varLiveList) node mem.

End TVarSetTraverser.

(** ** The resolver interface and TResolverAdaptor *)

(** [TIoMapResolver]: an abstract class with three virtual operations.  An
    implementation is a type [R] of resolver objects together with the
    operations, each of which may change the object. *)
Class TIoMapResolver (R : Type) := {
  validateBinding : EShLanguage → string → TType → bool → R → bool * R;
  resolveBinding : EShLanguage → string → TType → bool → R → Z * R;
  resolveSet : EShLanguage → string → TType → bool → R → Z * R
}.

(** The members of a [TResolverAdaptor] it holds by value.  [resolver] and
    [infoSink] are references to objects of the caller and are threaded
    through the calls instead. *)
Record TResolverAdaptor := mkAdaptor {
  stage : EShLanguage;
  error : bool
}.

Module TResolverAdaptor.
Section Adaptor.
Context {R : Type} `{TIoMapResolver R}.

(** [operator()(TVarEntryInfo& ent)]: the symbol is read through
    [ent.symbol]; the results are the function object, the entry, the
    resolver and the sink after the call. *)
Definition call (mem : ptr → TIntermSymbol) (self : TResolverAdaptor)
    (ent : TVarEntryInfo) (resolver : R) (infoSink : TInfoSink)
    : TResolverAdaptor * TVarEntryInfo * R * TInfoSink :=
  let sym := mem (symbol ent) in
  let '(isValid, resolver1) :=
    validateBinding (stage self) (getName sym) (getType sym) (live ent) resolver in
  if isValid then
    let '(b, resolver2) :=
      resolveBinding (stage self) (getName sym) (getType sym) (live ent) resolver1 in
    let '(s, resolver3) :=
      resolveSet (stage self) (getName sym) (getType sym) (live ent) resolver2 in
    (self, mkEntry (id ent) (symbol ent) (live ent) b s, resolver3, infoSink)
  else
    let errorMsg := ("Invalid binding: " +:+ getName sym)%string in
    (mkAdaptor (stage self) true, ent, resolver1,
     message EPrefixInternalError errorMsg infoSink).

(** [std::for_each(first, last, f)]: [f] is a parameter passed by value;
    it is applied to every element in turn and returned at the end. *)
Fixpoint std_for_each (mem : ptr → TIntermSymbol) (varMap : TVarLiveMap)
    (f : TResolverAdaptor) (resolver : R) (infoSink : TInfoSink)
    : TResolverAdaptor * TVarLiveMap * R * TInfoSink :=
  match varMap with
  | [] => (f, [], resolver, infoSink)
  | ent :: rest =>
      let '(f1, ent1, resolver1, infoSink1) := call mem f ent resolver infoSink in
      let '(f2, rest2, resolver2, infoSink2) :=
        std_for_each mem rest f1 resolver1 infoSink1 in
      (f2, ent1 :: rest2, resolver2, infoSink2)
  end.

End Adaptor.
End TResolverAdaptor.

(** ** TIoMapper::addStage *)

(** [std::sort(first, last, comp)]: the algorithm belongs to the standard
    library, so it is an interface here; [SortContract] is what the
    standard promises of it for a strict order [comp]. *)
Class StdSort := {
  std_sort : (TVarEntryInfo → TVarEntryInfo → bool) → TVarLiveMap → TVarLiveMap
}.

(** No element is placed before one that [comp] puts ahead of it. *)
Definition sorted_by (comp : TVarEntryInfo → TVarEntryInfo → bool) : TVarLiveMap → Prop :=
  StronglySorted (λ a b, comp b a = false).

Definition strict_order (comp : TVarEntryInfo → TVarEntryInfo → bool) : Prop :=
  (∀ a, comp a a = false) ∧
  (∀ a b c, comp a b = true → comp b c = true → comp a c = true).

Definition SortContract (S : StdSort) : Prop :=
  ∀ comp v, strict_order comp → std_sort comp v ≡ₚ v ∧ sorted_by comp (std_sort comp v).

(** What a call leaves behind: the value returned, the program, the sink
    and the resolver object.  [varMap] is the local list of entries as it
    stands when the call returns (empty if it returns before the list is
    declared); it is kept so that the write-back can be stated against it. *)
Record Outcome (R : Type) := mkOutcome {
  returned : bool;
  program : TIntermediate;
  sink : TInfoSink;
  resolverAfter : option R;
  varMap : TVarLiveMap
}.
Global Arguments mkOutcome {R}.
Global Arguments returned {R}.
Global Arguments program {R}.
Global Arguments sink {R}.
Global Arguments resolverAfter {R}.
Global Arguments varMap {R}.

Module TIoMapper.
Section Stage.
Context {Q : TQualifierPredicates} {Sort : StdSort} {R : Type}
  {resolverOps : TIoMapResolver R}.

(** The loop [while (!iter_binding_live.functions.empty()) { ... }].  One
    unit of [fuel] is spent on each test of the loop condition; [None] means
    the fuel ran out before the work list did. *)
Fixpoint liveLoop (fuel : nat) (intermediate : TIntermediate)
    (st : TVarGatherTraverser.state) : option TVarGatherTraverser.state :=
  match fuel with
  | O => None
  | S fuel' =>
      let '(it, varMap) := st in
      match functions it with
      | [] => Some st
      | function :: rest =>
          liveLoop fuel' intermediate
            (TVarGatherTraverser.traverse intermediate function
               (mkLiveTraverser (traverseAll it) rest (liveFunctions it), varMap))
      end
  end.

(** Enough fuel for any program: every pass through the loop pops one
    function, and a function is pushed at most once after the entry point. *)
Definition liveFuel (intermediate : TIntermediate) : nat :=
  (length (TLiveTraverser.globals intermediate) + 2)%nat.

(** Lines 252-264: the two collecting traversals over the shared [varMap]. *)
Definition collect (intermediate : TIntermediate) (root : TIntermNode)
    : option TVarLiveMap :=
  let varMap : TVarLiveMap := [] in
  let iter_binding_all := mkLiveTraverser true [] ∅ in
  let iter_binding_live := mkLiveTraverser false [] ∅ in
  let '(_, varMap) :=
    TVarGatherTraverser.traverse intermediate root (iter_binding_all, varMap) in
  let iter_binding_live :=
    TLiveTraverser.pushFunction intermediate
      (getEntryPointMangledName intermediate) iter_binding_live in
  snd <$> liveLoop (liveFuel intermediate) intermediate (iter_binding_live, varMap).

(** [addStage].  [doResolve] is handed to [std::for_each] by value and the
    function object that call returns is dropped, so the tests of
    [doResolve.error] below read the member of the local object. *)
Definition addStage (stage : EShLanguage) (intermediate : TIntermediate)
    (infoSink : TInfoSink) (resolver : option R) : option (Outcome R) :=
  match resolver with
  | None => Some (mkOutcome true intermediate infoSink None [])
  | Some res =>
      if bool_decide (getNumEntryPoints intermediate ≠ 1) || isRecursive intermediate
      then Some (mkOutcome false intermediate infoSink (Some res) [])
      else
        match getTreeRoot intermediate with
        | None => Some (mkOutcome false intermediate infoSink (Some res) [])
        | Some root =>
            varMap ← collect intermediate root;
            let varMap := std_sort (TOrderByPriority (symbols intermediate)) varMap in
            let doResolve := mkAdaptor stage false in
            let '(_, varMap, res, infoSink) :=
              TResolverAdaptor.std_for_each (symbols intermediate) varMap
                doResolve res infoSink in
            if negb (error doResolve) then
              let varMap := std_sort operator_lt varMap in
              let mem := TVarSetTraverser.traverse varMap root (symbols intermediate) in
              Some (mkOutcome (negb (error doResolve)) (setSymbols mem intermediate)
                      infoSink (Some res) varMap)
            else
              Some (mkOutcome (negb (error doResolve)) intermediate infoSink
                      (Some res) varMap)
        end
  end.

End Stage.
End TIoMapper.

(** ** Notions used to state the properties *)

(** The entry [visitSymbol] builds for the occurrence at [base]. *)
Definition entryOf (traverseAll : bool) (intermediate : TIntermediate) (base : ptr)
    : TVarEntryInfo :=
  mkEntry (getId (symbols intermediate base)) base (negb traverseAll) 0 0.

(** What [visitSymbol] does to the list, written as one pass from the
    front: skip the smaller ids, then either overwrite the liveness of the
    entry with the same id or put the new entry in front of the larger one. *)
Fixpoint upsert (ent : TVarEntryInfo) (v : TVarLiveMap) : TVarLiveMap :=
  match v with
  | [] => [ent]
  | e :: rest =>
      if operator_lt e ent then e :: upsert ent rest
      else if operator_eq e ent then setLive (live ent) e :: rest
      else ent :: e :: rest
  end.

(** The symbol leaves of a tree, in the order a traversal meets them. *)
Fixpoint symbolsOf (node : TIntermNode) : list ptr :=
  match node with
  | TIntermSymbolRef base => [base]
  | TIntermAggregate _ _ sequence => flat_map symbolsOf sequence
  end.

Definition isUniform (intermediate : TIntermediate) (base : ptr) : bool :=
  bool_decide (storage (getQualifier (symbols intermediate base)) = EvqUniform).

(** One all-code collecting pass over the tree at [root], continuing from
    the list [v]. *)
Definition allCodePass (intermediate : TIntermediate) (root : TIntermNode)
    (v : TVarLiveMap) : TVarLiveMap :=
  (TVarGatherTraverser.traverse intermediate root (mkLiveTraverser true [] ∅, v)).2.

Definition ids (v : TVarLiveMap) : list Z := id <$> v.

(** The list after [visitSymbol] on the occurrence at [base], by a
    traverser whose flag is [traverseAll]. *)
Definition gatherStep (traverseAll : bool) (intermediate : TIntermediate)
    (v : TVarLiveMap) (base : ptr) : TVarLiveMap :=
  if isUniform intermediate base
  then upsert (entryOf traverseAll intermediate base) v else v.

(** The names under which the root has a function definition. *)
Definition functionName (node : TIntermNode) : option string :=
  match node with
  | TIntermAggregate EOpFunction name _ => Some name
  | _ => None
  end.

Definition funNames (intermediate : TIntermediate) : gset string :=
  list_to_set (omap functionName (TLiveTraverser.globals intermediate)).

(** A bound on the passes the work-list loop can still make: the functions
    waiting on the list, and the defined functions not yet seen called. *)
Definition pending (intermediate : TIntermediate) (it : TLiveTraverser) : nat :=
  (length (functions it) + size (funNames intermediate ∖ liveFunctions it))%nat.

(** ** Observing the resolver *)

(** One call of a resolver operation: its arguments and what it returned. *)
Inductive TResolverCall :=
| CallValidateBinding (stage : EShLanguage) (name : string) (type : TType)
    (live : bool) (result : bool)
| CallResolveBinding (stage : EShLanguage) (name : string) (type : TType)
    (live : bool) (result : Z)
| CallResolveSet (stage : EShLanguage) (name : string) (type : TType)
    (live : bool) (result : Z).

(** A resolver wrapped so that it keeps a log of the calls it received,
    oldest first.  Every call is passed on to the resolver inside. *)
Record Recording (R : Type) := mkRecording {
  inner : R;
  calls : list TResolverCall
}.
Global Arguments mkRecording {R}.
Global Arguments inner {R}.
Global Arguments calls {R}.

Global Instance recording_resolver {R : Type} `{TIoMapResolver R}
    : TIoMapResolver (Recording R) := {
  validateBinding st n t l r :=
    let '(b, r') := validateBinding st n t l (inner r) in
    (b, mkRecording r' (calls r ++ [CallValidateBinding st n t l b]));
  resolveBinding st n t l r :=
    let '(b, r') := resolveBinding st n t l (inner r) in
    (b, mkRecording r' (calls r ++ [CallResolveBinding st n t l b]));
  resolveSet st n t l r :=
    let '(s, r') := resolveSet st n t l (inner r) in
    (s, mkRecording r' (calls r ++ [CallResolveSet st n t l s]))
}.

Definition isValidateCall (c : TResolverCall) : bool :=
  match c with CallValidateBinding _ _ _ _ _ => true | _ => false end.

(** What the adaptor is to do with a list of entries, entry by entry: the
    entries afterwards, the resolver calls made, the messages sent and
    whether any entry was refused.  An entry that validates is followed by
    one [resolveBinding] and one [resolveSet] with the same arguments, whose
    results it stores; an entry that does not is left as it is and reported.
    Neither case looks at the entry's liveness or at what happened before. *)
Inductive AdaptorTrace (mem : ptr → TIntermSymbol) (st : EShLanguage)
  : TVarLiveMap → TVarLiveMap → list TResolverCall → list (TPrefixType * string)
    → bool → Prop :=
| trace_done : AdaptorTrace mem st [] [] [] [] false
| trace_valid ent rest rest' cs msgs failed b s :
    AdaptorTrace mem st rest rest' cs msgs failed →
    let sym := mem (symbol ent) in
    AdaptorTrace mem st (ent :: rest)
      (mkEntry (id ent) (symbol ent) (live ent) b s :: rest')
      (CallValidateBinding st (getName sym) (getType sym) (live ent) true
         :: CallResolveBinding st (getName sym) (getType sym) (live ent) b
         :: CallResolveSet st (getName sym) (getType sym) (live ent) s :: cs)
      msgs failed
| trace_invalid ent rest rest' cs msgs failed :
    AdaptorTrace mem st rest rest' cs msgs failed →
    let sym := mem (symbol ent) in
    AdaptorTrace mem st (ent :: rest) (ent :: rest')
      (CallValidateBinding st (getName sym) (getType sym) (live ent) false :: cs)
      ((EPrefixInternalError, ("Invalid binding: " +:+ getName sym)%string) :: msgs)
      true.

(** The four classes of the ordering comment, numbered in the order in
    which they are to come out: both binding and set, binding only, set
    only, neither. *)
Definition priorityClass `{TQualifierPredicates} (q : TQualifier) : nat :=
  match hasBinding q, hasSet q with
  | true, true => 0
  | true, false => 1
  | false, true => 2
  | false, false => 3
  end.

(** The class of an entry, read through its [symbol] pointer. *)
Definition classOf `{TQualifierPredicates} (mem : ptr → TIntermSymbol)
    (e : TVarEntryInfo) : nat :=
  priorityClass (getQualifier (mem (symbol e))).

(** Two entries neither of which the comparator puts first. *)
Definition equivalent `{TQualifierPredicates} (mem : ptr → TIntermSymbol)
    (a b : TVarEntryInfo) : Prop :=
  TOrderByPriority mem a b = false ∧ TOrderByPriority mem b a = false.

(** The collecting traversals in the other order: live code first, then
    all code. *)
Definition collectLiveFirst (intermediate : TIntermediate) (root : TIntermNode)
    : option TVarLiveMap :=
  let iter_binding_live :=
    TLiveTraverser.pushFunction intermediate
      (getEntryPointMangledName intermediate) (mkLiveTraverser false [] ∅) in
  st ← TIoMapper.liveLoop (TIoMapper.liveFuel intermediate) intermediate
         (iter_binding_live, []);
  Some (allCodePass intermediate root st.2).

(** ** An insertion sort, as one implementation of [std::sort] *)

Fixpoint insert_by (comp : TVarEntryInfo → TVarEntryInfo → bool)
    (x : TVarEntryInfo) (v : TVarLiveMap) : TVarLiveMap :=
  match v with
  | [] => [x]
  | y :: rest => if comp x y then x :: y :: rest else y :: insert_by comp x rest
  end.

Definition insertion_sort (comp : TVarEntryInfo → TVarEntryInfo → bool)
    (v : TVarLiveMap) : TVarLiveMap :=
  foldr (insert_by comp) [] v.

Definition insertionSort : StdSort := {| std_sort := insertion_sort |}.

(** The same, run over the reversed list: another implementation. *)
Definition reverseInsertionSort : StdSort :=
  {| std_sort := λ comp v, insertion_sort comp (reverse v) |}.

(** ** A small program and two resolvers *)

(** Presence predicates for the examples: a field holds an end marker when
    nothing was specified. *)
Definition bindingEnd : Z := 65535.
Definition setEnd : Z := 63.

Definition markerPredicates : TQualifierPredicates := {|
  hasBinding q := negb (layoutBinding q =? bindingEnd);
  hasSet q := negb (layoutSet q =? setEnd)
|}.

(** [A]: a uniform with binding 2 and no set, occurring at addresses 0 and
    2; [B]: a uniform with neither, at address 1; everything else is a
    temporary. *)
Definition exampleSymbols : ptr → TIntermSymbol :=
  λ base,
    match base with
    | 0%nat | 2%nat => mkSymbol 1 "A" (mkType 1 (mkQualifier EvqUniform 2 setEnd))
    | 1%nat => mkSymbol 2 "B" (mkType 1 (mkQualifier EvqUniform bindingEnd setEnd))
    | _ => mkSymbol 3 "t" (mkType 0 (mkQualifier EvqTemporary bindingEnd setEnd))
    end.

(** [main] uses [A] twice and a temporary; [unused], which nothing calls,
    uses [B]. *)
Definition exampleRoot : TIntermNode :=
  TIntermAggregate EOpSequence ""
    [ TIntermAggregate EOpFunction "unused("
        [ TIntermAggregate EOpSequence "" [TIntermSymbolRef 1%nat] ];
      TIntermAggregate EOpFunction "main("
        [ TIntermAggregate EOpSequence ""
            [TIntermSymbolRef 0%nat; TIntermSymbolRef 3%nat; TIntermSymbolRef 2%nat] ] ].

Definition exampleProgram : TIntermediate :=
  mkIntermediate 1 false (Some exampleRoot) "main(" exampleSymbols.

(** The same tree declared with two entry points. *)
Definition twoEntryProgram : TIntermediate :=
  mkIntermediate 2 false (Some exampleRoot) "main(" exampleSymbols.

(** A resolver without state that accepts everything, keeps a binding that
    was given and hands out 10 otherwise, and puts everything in set 0. *)
Definition acceptingResolver : TIoMapResolver () := {|
  validateBinding _ _ _ _ r := (true, r);
  resolveBinding _ _ t _ r :=
    (if @hasBinding markerPredicates (qualifier t) then layoutBinding (qualifier t) else 10, r);
  resolveSet _ _ _ _ r := (0, r)
|}.

(** A resolver that refuses variables that are not live. *)
Definition liveOnlyResolver : TIoMapResolver () := {|
  validateBinding _ _ _ live r := (live, r);
  resolveBinding _ _ t _ r :=
    (if @hasBinding markerPredicates (qualifier t) then layoutBinding (qualifier t) else 10, r);
  resolveSet _ _ _ _ r := (0, r)
|}.

(** What makes a program unfit for mapping. *)
Definition malformed (intermediate : TIntermediate) : Prop :=
  getNumEntryPoints intermediate ≠ 1 ∨ isRecursive intermediate = true ∨
  getTreeRoot intermediate = None.

(** The symbol leaves of the whole program. *)
Definition treeSymbols (intermediate : TIntermediate) : list ptr :=
  match getTreeRoot intermediate with
  | Some root => symbolsOf root
  | None => []
  end.

(** A symbol node after the write-back has looked it up in [v]: the two
    assignments of [TVarSetTraverser::visitSymbol] applied to the node. *)
Definition rewritten (v : TVarLiveMap) (s : TIntermSymbol) : TIntermSymbol :=
  match List.find (λ e, bool_decide (id e = getId s)) v with
  | None => s
  | Some e =>
      let s1 := if decide (newBinding e ≠ -1) then setLayoutBinding (newBinding e) s else s in
      if decide (newSet e ≠ -1) then setLayoutSet (newSet e) s1 else s1
  end.

(** The log of a logging resolver after a call of [addStage]. *)
Definition resolverLog {R : Type} (o : option (Outcome (Recording R)))
    : option (list TResolverCall) :=
  out ← o; calls <$> resolverAfter out.

(** ** Live code *)

(** The names of the functions called in a tree, in the order a traversal
    meets the calls. *)
Fixpoint callsOf (node : TIntermNode) : list string :=
  match node with
  | TIntermSymbolRef _ => []
  | TIntermAggregate op name sequence =>
      (if bool_decide (op = EOpFunctionCall) then [name] else [])
        ++ flat_map callsOf sequence
  end.

Definition findFunction (intermediate : TIntermediate) (name : string)
    : option TIntermNode :=
  List.find (TLiveTraverser.isFunction name) (TLiveTraverser.globals intermediate).

(** The function definitions reachable from the entry point along calls. *)
Inductive LiveFunction (intermediate : TIntermediate) : TIntermNode → Prop :=
| live_entry function :
    findFunction intermediate (getEntryPointMangledName intermediate) = Some function →
    LiveFunction intermediate function
| live_callee caller name function :
    LiveFunction intermediate caller →
    name ∈ callsOf caller →
    findFunction intermediate name = Some function →
    LiveFunction intermediate function.

(** A variable is used in live code when a uniform occurrence of it lies in
    a reachable function. *)
Definition usedInLiveCode (intermediate : TIntermediate) (x : Z) : Prop :=
  ∃ function base,
    LiveFunction intermediate function ∧ base ∈ symbolsOf function ∧
    isUniform intermediate base = true ∧ getId (symbols intermediate base) = x.

(** The live traverser after it has met the calls [names]. *)
Definition seeCalls (intermediate : TIntermediate) (names : list string)
    (it : TLiveTraverser) : TLiveTraverser :=
  fold_left (λ it' name, TLiveTraverser.addFunctionCall intermediate name it') names it.

(** The list has an entry for [x] that is marked live. *)
Definition marked (v : TVarLiveMap) (x : Z) : Prop :=
  ∃ e, e ∈ v ∧ id e = x ∧ live e = true.

(** What holds each time the work-list loop tests its condition, [visited]
    being the functions traversed so far. *)
Definition LiveInvariant (intermediate : TIntermediate) (visited : list TIntermNode)
    (st : TVarGatherTraverser.state) : Prop :=
  traverseAll st.1 = false ∧
  (∀ name function,
     name ∈ liveFunctions st.1 ∨ name = getEntryPointMangledName intermediate →
     findFunction intermediate name = Some function →
     function ∈ functions st.1 ∨ function ∈ visited) ∧
  (∀ function,
     function ∈ functions st.1 ∨ function ∈ visited →
     LiveFunction intermediate function) ∧
  (∀ function name,
     function ∈ visited → name ∈ callsOf function → name ∈ liveFunctions st.1) ∧
  (∀ x, marked st.2 x ↔
        ∃ function base,
          function ∈ visited ∧ base ∈ symbolsOf function ∧
          isUniform intermediate base = true ∧ getId (symbols intermediate base) = x).

(** ** The stage as specified *)

(** The specification's [addStage], for comparison: the failure flag the
    adaptor sets while it goes through the entries is the flag the stage
    tests afterwards.  It differs from [TIoMapper.addStage] in that alone. *)
Definition addStageAsSpecified {Q : TQualifierPredicates} {Sort : StdSort}
    {R : Type} {resolverOps : TIoMapResolver R}
    (stage : EShLanguage) (intermediate : TIntermediate)
    (infoSink : TInfoSink) (resolver : option R) : option (Outcome R) :=
  match resolver with
  | None => Some (mkOutcome true intermediate infoSink None [])
  | Some res =>
      if bool_decide (getNumEntryPoints intermediate ≠ 1) || isRecursive intermediate
      then Some (mkOutcome false intermediate infoSink (Some res) [])
      else
        match getTreeRoot intermediate with
        | None => Some (mkOutcome false intermediate infoSink (Some res) [])
        | Some root =>
            varMap ← TIoMapper.collect intermediate root;
            let varMap := std_sort (TOrderByPriority (symbols intermediate)) varMap in
            let '(doResolve, varMap, res, infoSink) :=
              TResolverAdaptor.std_for_each (symbols intermediate) varMap
                (mkAdaptor stage false) res infoSink in
            if negb (error doResolve) then
              let varMap := std_sort operator_lt varMap in
              let mem := TVarSetTraverser.traverse varMap root (symbols intermediate) in
              Some (mkOutcome true (setSymbols mem intermediate)
                      infoSink (Some res) varMap)
            else
              Some (mkOutcome false intermediate infoSink (Some res) varMap)
        end
  end.

(** Whether the adaptor refuses some entry of the stage: the flag of the
    function object [std::for_each] returns. *)
Definition validationFails {Q : TQualifierPredicates} {Sort : StdSort}
    {R : Type} {resolverOps : TIoMapResolver R}
    (stage : EShLanguage) (intermediate : TIntermediate)
    (infoSink : TInfoSink) (res : R) : bool :=
  match getTreeRoot intermediate with
  | None => false
  | Some root =>
      match TIoMapper.collect intermediate root with
      | None => false
      | Some varMap =>
          error (TResolverAdaptor.std_for_each (symbols intermediate)
                   (std_sort (TOrderByPriority (symbols intermediate)) varMap)
                   (mkAdaptor stage false) res infoSink).1.1.1
      end
  end.

(** ** Notions for the further properties *)

(** Everything of an entry but its liveness. *)
Definition core (e : TVarEntryInfo) : Z * ptr * Z * Z :=
  (id e, symbol e, newBinding e, newSet e).

(** [base] is the first uniform occurrence of the variable [x] among
    [bases], taken in order. *)
Definition firstUniformOccurrence (intermediate : TIntermediate)
    (bases : list ptr) (x : Z) (base : ptr) : Prop :=
  ∃ before after,
    bases = before ++ base :: after ∧
    isUniform intermediate base = true ∧
    getId (symbols intermediate base) = x ∧
    ∀ b, b ∈ before → isUniform intermediate b = true →
         getId (symbols intermediate b) ≠ x.

(** Every uniform occurrence in a function defined at the root has an entry
    in the list. *)
Definition coversFunctions (intermediate : TIntermediate) (v : TVarLiveMap) : Prop :=
  ∀ function base,
    function ∈ TLiveTraverser.globals intermediate →
    base ∈ symbolsOf function →
    isUniform intermediate base = true →
    getId (symbols intermediate base) ∈ ids v.

(** The arguments the adaptor hands to the resolver for an entry. *)
Definition argsOf (mem : ptr → TIntermSymbol) (e : TVarEntryInfo)
    : string * TType * bool :=
  (getName (mem (symbol e)), getType (mem (symbol e)), live e).

(** The arguments of the [validateBinding] calls of a log, in order. *)
Definition validateArgs (cs : list TResolverCall) : list (string * TType * bool) :=
  omap (λ c, match c with
             | CallValidateBinding _ name type live _ => Some (name, type, live)
             | _ => None
             end) cs.

(** The names for which [validateBinding] returned [false], in order. *)
Definition rejectedNames (cs : list TResolverCall) : list string :=
  omap (λ c, match c with
             | CallValidateBinding _ name _ _ false => Some name
             | _ => None
             end) cs.

(** The message sent for a rejected variable. *)
Definition invalidBindingMessage (name : string) : TPrefixType * string :=
  (EPrefixInternalError, ("Invalid binding: " +:+ name)%string).

(** The priority classes of the types handed to [validateBinding], in the
    order of the calls. *)
Definition validateClasses `{TQualifierPredicates} (cs : list TResolverCall)
    : list nat :=
  (λ a : string * TType * bool, priorityClass (qualifier a.1.2)) <$> validateArgs cs.

(** The entries the example collects: [A], live, and [B], not live. *)
Definition exampleEntries : TVarLiveMap :=
  [mkEntry 1 0%nat true 0 0; mkEntry 2 1%nat false 0 0].

(** A resolver that accepts everything and answers with a binding and a set
    too large for the fields they are written to. *)
Definition wideResolver : TIoMapResolver () := {|
  validateBinding _ _ _ _ r := (true, r);
  resolveBinding _ _ _ _ r := (70000, r);
  resolveSet _ _ _ _ r := (200, r)
|}.

(** The definition of [main] in the example. *)
Definition exampleMain : TIntermNode :=
  TIntermAggregate EOpFunction "main("
    [ TIntermAggregate EOpSequence ""
        [TIntermSymbolRef 0%nat; TIntermSymbolRef 3%nat; TIntermSymbolRef 2%nat] ].

(** * Properties *)

(** ** Traversal equations *)

Lemma traverse_symbol {S} (va : TOperator → string → S → S) (vs : ptr → S → S) base s :
  traverse va vs (TIntermSymbolRef base) s = vs base s.
Proof. done. Qed.

Lemma traverse_aggregate {S} (va : TOperator → string → S → S) (vs : ptr → S → S)
    op name sequence s :
  traverse va vs (TIntermAggregate op name sequence) s =
  fold_left (λ s' child, traverse va vs child s') sequence (va op name s).
Proof. done. Qed.

(** ** The collector *)

Lemma lower_bound_upsert ent v :
  match v !! lower_bound v ent with
  | Some e =>
      if operator_eq e ent
      then <[lower_bound v ent := setLive (live ent) e]> v
      else vector_insert (lower_bound v ent) ent v
  | None => vector_insert (lower_bound v ent) ent v
  end = upsert ent v.
Proof.
  induction v as [|e rest IH]; [done |].
  simpl. destruct (operator_lt e ent) eqn:Hlt.
  - simpl. rewrite <- IH. unfold vector_insert.
    destruct (rest !! lower_bound rest ent) as [e'|]; [destruct (operator_eq e' ent) |]; done.
  - simpl. destruct (operator_eq e ent); done.
Qed.

Lemma visitSymbol_upsert intermediate base it v :
  TVarGatherTraverser.visitSymbol intermediate base (it, v) =
  (it, if isUniform intermediate base
       then upsert (entryOf (traverseAll it) intermediate base) v else v).
Proof.
  unfold TVarGatherTraverser.visitSymbol, isUniform.
  destruct (decide _) as [Hu|Hu].
  - rewrite bool_decide_eq_true_2 by done.
    rewrite <- lower_bound_upsert. unfold entryOf. simpl.
    destruct (v !! _) as [e|]; [destruct (operator_eq _ _) |]; done.
  - by rewrite bool_decide_eq_false_2.
Qed.

Lemma upsert_cons ent e rest :
  upsert ent (e :: rest) =
  if bool_decide (id e < id ent) then e :: upsert ent rest
  else if bool_decide (id e = id ent) then setLive (live ent) e :: rest
  else ent :: e :: rest.
Proof. done. Qed.

Lemma ids_upsert_lower ent v x :
  x < id ent → Forall (Z.lt x) (ids v) → Forall (Z.lt x) (ids (upsert ent v)).
Proof.
  intros Hx. unfold ids. induction v as [|e rest IH]; intros Hall.
  - by repeat constructor.
  - rewrite upsert_cons. csimpl in Hall. inv Hall.
    repeat case_bool_decide; csimpl; repeat constructor; auto.
Qed.

Lemma ids_upsert_sorted ent v :
  StronglySorted Z.lt (ids v) → StronglySorted Z.lt (ids (upsert ent v)).
Proof.
  unfold ids. induction v as [|e rest IH]; intros Hs.
  - repeat constructor.
  - rewrite upsert_cons. csimpl in Hs. apply StronglySorted_inv in Hs as [Hs Hall].
    repeat case_bool_decide; csimpl.
    + constructor; [by apply IH |]. by apply ids_upsert_lower.
    + by constructor.
    + constructor; [by constructor |].
      constructor; [lia |].
      apply (Forall_impl _ _ _ Hall). intros; lia.
Qed.

Lemma ids_upsert_elem ent v : id ent ∈ ids (upsert ent v).
Proof.
  unfold ids. induction v as [|e rest IH].
  - set_solver.
  - rewrite upsert_cons. repeat case_bool_decide; csimpl; set_solver.
Qed.

Lemma ids_upsert_mono ent v x : x ∈ ids v → x ∈ ids (upsert ent v).
Proof.
  unfold ids. induction v as [|e rest IH].
  - set_solver.
  - rewrite upsert_cons. repeat case_bool_decide; csimpl; set_solver.
Qed.

Lemma ids_upsert_present ent v :
  StronglySorted Z.lt (ids v) → id ent ∈ ids v → ids (upsert ent v) = ids v.
Proof.
  unfold ids. induction v as [|e rest IH]; intros Hs Hin.
  - set_solver.
  - rewrite upsert_cons. csimpl in *. apply StronglySorted_inv in Hs as [Hs Hall].
    repeat case_bool_decide; csimpl.
    + f_equal. apply IH; [done |]. set_solver by lia.
    + done.
    + exfalso. apply elem_of_cons in Hin as [?|Hin]; [lia |].
      rewrite Forall_forall in Hall. apply Hall in Hin. lia.
Qed.

Lemma StronglySorted_lt_NoDup (l : list Z) : StronglySorted Z.lt l → NoDup l.
Proof.
  induction 1 as [|x l ? IH Hall]; constructor; [| done].
  intros Hin. rewrite Forall_forall in Hall. apply Hall in Hin. lia.
Qed.

(** ** The priority order *)

Section Priority.
Context `{TQualifierPredicates} (mem : ptr → TIntermSymbol).

Lemma TOrderByPriority_lex l r :
  TOrderByPriority mem l r = true ↔
  (classOf mem l < classOf mem r)%nat ∨
  (classOf mem l = classOf mem r ∧ id l < id r).
Proof.
  unfold TOrderByPriority, classOf, priorityClass.
  destruct (hasBinding _), (hasBinding _), (hasSet _), (hasSet _); simpl;
    rewrite ?bool_decide_eq_true; split; intros; try lia; try done;
    try (right; split; [done | lia]).
Qed.

Lemma TOrderByPriority_lex_false l r :
  TOrderByPriority mem l r = false ↔
  (classOf mem r < classOf mem l)%nat ∨
  (classOf mem l = classOf mem r ∧ id r ≤ id l).
Proof.
  rewrite <- not_true_iff_false, TOrderByPriority_lex. lia.
Qed.

Lemma TOrderByPriority_strict : strict_order (TOrderByPriority mem).
Proof.
  split.
  - intros a. apply TOrderByPriority_lex_false. lia.
  - intros a b c. rewrite !TOrderByPriority_lex. lia.
Qed.

Lemma TOrderByPriority_total a b :
  id a ≠ id b → TOrderByPriority mem a b = true ∨ TOrderByPriority mem b a = true.
Proof. rewrite !TOrderByPriority_lex. lia. Qed.

(** C3: the priority comparator is a strict weak order (irreflexive,
    transitive, with a transitive equivalence of incomparable entries) that
    puts an entry of an earlier class (both binding and set, then binding
    only, then set only, then neither) before any entry of a later class,
    and orders two entries of one class by lower id first. *)
Theorem TOrderByPriority_strict_weak_order :
  (∀ a, TOrderByPriority mem a a = false) ∧
  (∀ a b c, TOrderByPriority mem a b = true → TOrderByPriority mem b c = true →
            TOrderByPriority mem a c = true) ∧
  (∀ a b c, equivalent mem a b → equivalent mem b c → equivalent mem a c) ∧
  (∀ l r, (classOf mem l < classOf mem r)%nat →
          TOrderByPriority mem l r = true ∧ TOrderByPriority mem r l = false) ∧
  (∀ l r, classOf mem l = classOf mem r →
          TOrderByPriority mem l r = bool_decide (id l < id r)).
Proof.
  split; [apply TOrderByPriority_strict |].
  split; [apply TOrderByPriority_strict |].
  split; [| split].
  - intros a b c. unfold equivalent. rewrite !TOrderByPriority_lex_false. lia.
  - intros l r Hc. rewrite TOrderByPriority_lex, TOrderByPriority_lex_false. lia.
  - intros l r Hc. destruct (bool_decide (id l < id r)) eqn:E.
    + apply bool_decide_eq_true in E. apply TOrderByPriority_lex. lia.
    + apply bool_decide_eq_false in E. apply TOrderByPriority_lex_false. lia.
Qed.

End Priority.

Lemma visitSymbol_gatherStep intermediate base it v :
  TVarGatherTraverser.visitSymbol intermediate base (it, v) =
  (it, gatherStep (traverseAll it) intermediate v base).
Proof. apply visitSymbol_upsert. Qed.

Lemma gatherStep_sorted ta intermediate v base :
  StronglySorted Z.lt (ids v) → StronglySorted Z.lt (ids (gatherStep ta intermediate v base)).
Proof. unfold gatherStep. destruct (isUniform _ _); auto using ids_upsert_sorted. Qed.

Lemma gatherStep_mono ta intermediate v base x :
  x ∈ ids v → x ∈ ids (gatherStep ta intermediate v base).
Proof. unfold gatherStep. destruct (isUniform _ _); auto using ids_upsert_mono. Qed.

Lemma gatherStep_elem ta intermediate v base :
  isUniform intermediate base = true →
  getId (symbols intermediate base) ∈ ids (gatherStep ta intermediate v base).
Proof.
  unfold gatherStep. intros ->.
  apply (ids_upsert_elem (entryOf ta intermediate base)).
Qed.

Lemma gatherStep_present ta intermediate v base :
  StronglySorted Z.lt (ids v) →
  (isUniform intermediate base = true → getId (symbols intermediate base) ∈ ids v) →
  ids (gatherStep ta intermediate v base) = ids v.
Proof.
  unfold gatherStep. intros Hs Hin. destruct (isUniform _ _); [| done].
  apply ids_upsert_present; [done |]. by apply Hin.
Qed.

Lemma upsert_elem_of ent v e :
  e ∈ upsert ent v →
  (id e = id ent ∧ live e = live ent) ∨ (id e ≠ id ent ∧ e ∈ v) ∨
  (id e = id ent ∧ ¬ StronglySorted Z.lt (ids v)).
Proof.
  unfold ids. induction v as [|e0 rest IH]; intros Hin.
  - apply list_elem_of_singleton in Hin as ->. by left.
  - rewrite upsert_cons in Hin. repeat case_bool_decide.
    + apply elem_of_cons in Hin as [-> | Hin].
      * right; left. split; [lia | left].
      * destruct (IH Hin) as [? | [[? ?] | [? Hns]]]; [by left | |].
        -- right; left. split; [done | by right].
        -- right; right. split; [done |]. intros Hs. apply Hns.
           csimpl in Hs. by apply StronglySorted_inv in Hs as [Hs _].
    + apply elem_of_cons in Hin as [-> | Hin]; [by left |].
      destruct (decide (id e = id ent)) as [Heq | Hne].
      * right; right. split; [done |]. intros Hs. csimpl in Hs.
        apply StronglySorted_inv in Hs as [_ Hall].
        rewrite Forall_forall in Hall.
        assert (id e0 < id e) by (by apply Hall, list_elem_of_fmap_2). lia.
      * right; left. split; [done | by right].
    + apply elem_of_cons in Hin as [-> | Hin]; [by left |].
      destruct (decide (id e = id ent)) as [Heq | Hne].
      * right; right. split; [done |]. intros Hs. csimpl in Hs.
        apply StronglySorted_inv in Hs as [_ Hall].
        rewrite Forall_forall in Hall.
        apply elem_of_cons in Hin as [-> | Hin]; [lia |].
        assert (id e0 < id e) by (by apply Hall, list_elem_of_fmap_2). lia.
      * right; left. done.
Qed.

(** After a visit of a uniform occurrence, the entry of its variable has the
    liveness of the visiting traverser: live for the live-code traverser,
    not live for the all-code traverser, whatever it was before. *)
Lemma gatherStep_live ta intermediate v base e :
  StronglySorted Z.lt (ids v) →
  isUniform intermediate base = true →
  e ∈ gatherStep ta intermediate v base →
  id e = getId (symbols intermediate base) →
  live e = negb ta.
Proof.
  unfold gatherStep. intros Hs -> Hin Hid.
  apply upsert_elem_of in Hin as [[_ Hl] | [[Hne _] | [_ Hns]]]; done.
Qed.

(** A traverser built with [traverseAll = true] is left as it was, and the
    list sees one [visitSymbol] per symbol leaf, in order. *)
Lemma traverse_all intermediate node :
  ∀ it v, traverseAll it = true →
    TVarGatherTraverser.traverse intermediate node (it, v) =
    (it, fold_left (gatherStep true intermediate) (symbolsOf node) v).
Proof.
  unfold TVarGatherTraverser.traverse.
  induction node as [base | op name sequence IH] using TIntermNode_tree_ind;
    intros it v Hall.
  - by rewrite traverse_symbol, visitSymbol_gatherStep, Hall.
  - rewrite traverse_aggregate.
    unfold TVarGatherTraverser.visitAggregate at 2.
    unfold TLiveTraverser.visitAggregate. simpl fst. simpl snd. rewrite Hall.
    simpl andb. cbv iota. simpl symbolsOf.
    revert v. induction IH as [| child rest Hchild _ IHrest]; intros v; [done |].
    simpl. rewrite Hchild by done. rewrite fold_left_app. apply IHrest.
Qed.

Lemma allCodePass_fold intermediate root v :
  allCodePass intermediate root v =
  fold_left (gatherStep true intermediate) (symbolsOf root) v.
Proof. unfold allCodePass. by rewrite traverse_all. Qed.

Lemma fold_gatherStep_sorted ta intermediate bases v :
  StronglySorted Z.lt (ids v) →
  StronglySorted Z.lt (ids (fold_left (gatherStep ta intermediate) bases v)).
Proof.
  revert v. induction bases as [|base bases IH]; intros v Hs; [done |].
  simpl. by apply IH, gatherStep_sorted.
Qed.

Lemma fold_gatherStep_mono ta intermediate bases v x :
  x ∈ ids v → x ∈ ids (fold_left (gatherStep ta intermediate) bases v).
Proof.
  revert v. induction bases as [|base bases IH]; intros v Hin; [done |].
  simpl. by apply IH, gatherStep_mono.
Qed.

Lemma fold_gatherStep_elem ta intermediate bases v base :
  base ∈ bases → isUniform intermediate base = true →
  getId (symbols intermediate base) ∈ ids (fold_left (gatherStep ta intermediate) bases v).
Proof.
  revert v. induction bases as [|b bases IH]; intros v Hin Hu; [by inv Hin |].
  simpl. apply elem_of_cons in Hin as [-> | Hin].
  - by apply fold_gatherStep_mono, gatherStep_elem.
  - by apply IH.
Qed.

Lemma fold_gatherStep_present ta intermediate bases v :
  StronglySorted Z.lt (ids v) →
  (∀ base, base ∈ bases → isUniform intermediate base = true →
           getId (symbols intermediate base) ∈ ids v) →
  ids (fold_left (gatherStep ta intermediate) bases v) = ids v.
Proof.
  revert v. induction bases as [|b bases IH]; intros v Hs Hin; [done |].
  simpl. rewrite IH.
  - apply gatherStep_present; [done |]. intros Hu. apply Hin; [left | done].
  - by apply gatherStep_sorted.
  - intros base Hb Hu. apply gatherStep_mono, Hin; [by right | done].
Qed.

(** C8: starting from the empty list, the all-code pass leaves the list
    strictly increasing in id, hence with at most one entry per id, and a
    second all-code pass over the same tree leaves a list of the same
    length with the same ids in the same places; it stays strictly
    increasing. *)
Theorem allCodePass_idempotent (intermediate : TIntermediate) (root : TIntermNode) :
  let once := allCodePass intermediate root [] in
  let twice := allCodePass intermediate root once in
  StronglySorted Z.lt (ids once) ∧ NoDup (ids once) ∧
  StronglySorted Z.lt (ids twice) ∧ NoDup (ids twice) ∧
  length twice = length once ∧
  ids twice = ids once ∧
  (list_to_set (ids twice) : gset Z) = list_to_set (ids once).
Proof.
  intros once twice.
  assert (Hs1 : StronglySorted Z.lt (ids once)).
  { unfold once. rewrite allCodePass_fold. apply fold_gatherStep_sorted. constructor. }
  assert (Hids : ids twice = ids once).
  { unfold twice. rewrite allCodePass_fold. apply fold_gatherStep_present; [done |].
    intros base Hb Hu. unfold once. rewrite allCodePass_fold.
    by apply fold_gatherStep_elem. }
  rewrite Hids. repeat split; auto using StronglySorted_lt_NoDup.
  apply (f_equal length) in Hids. unfold ids in Hids. by rewrite !length_fmap in Hids.
Qed.

(** ** The work-list loop comes to an end *)

Local Open Scope nat_scope.

Lemma length_omap_le {A B} (f : A → option B) (l : list A) :
  length (omap f l) ≤ length l.
Proof. induction l as [|x l IH]; csimpl; [done |]. destruct (f x); simpl; lia. Qed.

Lemma find_isFunction_funNames intermediate name candidate :
  List.find (TLiveTraverser.isFunction name) (TLiveTraverser.globals intermediate)
    = Some candidate →
  name ∈ funNames intermediate.
Proof.
  intros Hf. apply find_some in Hf as [Hin Hc].
  unfold funNames. apply elem_of_list_to_set, list_elem_of_omap.
  exists candidate. split; [by apply list_elem_of_In |].
  destruct candidate as [|op n sequence]; [done |].
  simpl in Hc. apply andb_prop in Hc as [Hop Hn].
  apply bool_decide_eq_true in Hop, Hn. by subst.
Qed.

Lemma size_list_to_set_le (l : list string) : size (list_to_set l : gset string) ≤ length l.
Proof.
  induction l as [|x l IH].
  - change (size (∅ : gset string) ≤ 0). by rewrite size_empty.
  - change (size ({[x]} ∪ list_to_set l : gset string) ≤ S (length l)).
    rewrite size_union_alt, size_singleton.
    assert (size (list_to_set l ∖ {[x]} : gset string) ≤ size (list_to_set l : gset string))
      by (apply subseteq_size; set_solver).
    lia.
Qed.

Lemma pending_addFunctionCall intermediate name it :
  pending intermediate (TLiveTraverser.addFunctionCall intermediate name it)
  ≤ pending intermediate it.
Proof.
  unfold TLiveTraverser.addFunctionCall, TLiveTraverser.pushFunction, pending.
  destruct (decide _) as [Hin|Hin]; [done |]. simpl.
  destruct (List.find _ _) as [candidate|] eqn:Hf; simpl.
  - apply find_isFunction_funNames in Hf.
    assert (size (funNames intermediate ∖ ({[name]} ∪ liveFunctions it))
            < size (funNames intermediate ∖ liveFunctions it))
      by (apply subset_size; set_solver).
    lia.
  - assert (size (funNames intermediate ∖ ({[name]} ∪ liveFunctions it))
            ≤ size (funNames intermediate ∖ liveFunctions it))
      by (apply subseteq_size; set_solver).
    lia.
Qed.

Lemma pending_traverse intermediate node :
  ∀ st, pending intermediate (TVarGatherTraverser.traverse intermediate node st).1
        ≤ pending intermediate st.1.
Proof.
  unfold TVarGatherTraverser.traverse.
  induction node as [base | op name sequence IH] using TIntermNode_tree_ind;
    intros [it v].
  - by rewrite traverse_symbol, visitSymbol_gatherStep.
  - rewrite traverse_aggregate.
    assert (Hva : pending intermediate
                    (TVarGatherTraverser.visitAggregate intermediate op name (it, v)).1
                  ≤ pending intermediate (it, v).1).
    { unfold TVarGatherTraverser.visitAggregate, TLiveTraverser.visitAggregate. simpl.
      destruct (_ && _); [apply pending_addFunctionCall | done]. }
    revert Hva. generalize (TVarGatherTraverser.visitAggregate intermediate op name (it, v)).
    induction IH as [| child rest Hchild _ IHrest]; intros st Hst; [done |].
    simpl. apply IHrest. etrans; [apply Hchild | done].
Qed.

Lemma liveLoop_terminates fuel intermediate :
  ∀ st, pending intermediate st.1 < fuel → is_Some (TIoMapper.liveLoop fuel intermediate st).
Proof.
  induction fuel as [|fuel IH]; intros [it v] Hlt; [simpl in Hlt; lia |].
  simpl. destruct (functions it) as [|function rest] eqn:Hfun; [done |].
  apply IH. eapply Nat.le_lt_trans; [apply pending_traverse |].
  unfold pending in *. simpl in *. rewrite Hfun in Hlt. simpl in Hlt. lia.
Qed.

Lemma pending_initial intermediate :
  pending intermediate
    (TLiveTraverser.pushFunction intermediate (getEntryPointMangledName intermediate)
       (mkLiveTraverser false [] ∅))
  < TIoMapper.liveFuel intermediate.
Proof.
  unfold pending, TIoMapper.liveFuel, TLiveTraverser.pushFunction.
  assert (size (funNames intermediate ∖ ∅) ≤ length (TLiveTraverser.globals intermediate)).
  { assert (size (funNames intermediate ∖ ∅) ≤ size (funNames intermediate))
      by (apply subseteq_size; set_solver).
    assert (size (funNames intermediate)
            ≤ length (omap functionName (TLiveTraverser.globals intermediate)))
      by apply size_list_to_set_le.
    pose proof (length_omap_le functionName (TLiveTraverser.globals intermediate)).
    lia. }
  destruct (List.find _ _); simpl; lia.
Qed.

Lemma collect_terminates `{TQualifierPredicates} `{StdSort} intermediate root :
  is_Some (TIoMapper.collect intermediate root).
Proof.
  unfold TIoMapper.collect.
  destruct (TVarGatherTraverser.traverse _ _ _) as [it v].
  apply fmap_is_Some, liveLoop_terminates, pending_initial.
Qed.

Local Close Scope nat_scope.

(** ** The resolver adaptor *)

Section AdaptorFacts.
Context {R : Type} `{TIoMapResolver R} (mem : ptr → TIntermSymbol).

Lemma AdaptorTrace_validate_count st v v' cs msgs failed :
  AdaptorTrace mem st v v' cs msgs failed →
  length (List.filter isValidateCall cs) = length v ∧ length v' = length v.
Proof.
  induction 1 as [| ???????? _ [IH1 IH2] | ?????? _ [IH1 IH2]]; [done | |];
    simpl; by rewrite IH1, IH2.
Qed.

(** One application of the function object to an entry, with a logging
    resolver: the two ways it can go. *)
Lemma call_recording (f : TResolverAdaptor) (ent : TVarEntryInfo)
    (r : Recording R) (infoSink : TInfoSink) :
  let sym := mem (symbol ent) in
  (∃ r3 b s,
     TResolverAdaptor.call mem f ent r infoSink =
       (f, mkEntry (id ent) (symbol ent) (live ent) b s,
        mkRecording r3
          (calls r ++
             [CallValidateBinding (stage f) (getName sym) (getType sym) (live ent) true;
              CallResolveBinding (stage f) (getName sym) (getType sym) (live ent) b;
              CallResolveSet (stage f) (getName sym) (getType sym) (live ent) s]),
        infoSink)) ∨
  (∃ r1,
     TResolverAdaptor.call mem f ent r infoSink =
       (mkAdaptor (stage f) true, ent,
        mkRecording r1
          (calls r ++
             [CallValidateBinding (stage f) (getName sym) (getType sym) (live ent) false]),
        message EPrefixInternalError ("Invalid binding: " +:+ getName sym)%string infoSink)).
Proof.
  intros sym. unfold TResolverAdaptor.call. fold sym. simpl.
  destruct (validateBinding (stage f) (getName sym) (getType sym) (live ent) (inner r))
    as [[|] r1].
  - left. simpl.
    destruct (resolveBinding (stage f) (getName sym) (getType sym) (live ent) r1)
      as [b r2]. simpl.
    destruct (resolveSet (stage f) (getName sym) (getType sym) (live ent) r2)
      as [s r3]. simpl.
    exists r3, b, s. by rewrite <- !app_assoc.
  - right. by exists r1.
Qed.

(** Run over a list of entries with a resolver that logs its calls, the
    adaptor calls [validateBinding] exactly once per entry, whatever the
    entry's liveness and whatever came before; after a [true] it calls
    [resolveBinding] and [resolveSet] and stores their results in the entry,
    after a [false] it calls neither, leaves the entry alone, sends
    ["Invalid binding: " + name] to the sink and sets the [error] flag of
    the function object it runs in, the one [std::for_each] returns. *)
Theorem std_for_each_trace (v : TVarLiveMap) (f : TResolverAdaptor)
    (r : Recording R) (infoSink : TInfoSink) :
  ∃ cs msgs failed,
    let '(f', v', r', infoSink') :=
      TResolverAdaptor.std_for_each mem v f r infoSink in
    AdaptorTrace mem (stage f) v v' cs msgs failed ∧
    calls r' = calls r ++ cs ∧
    length (List.filter isValidateCall cs) = length v ∧
    info infoSink' = info infoSink ++ msgs ∧
    stage f' = stage f ∧
    error f' = error f || failed.
Proof.
  revert f r infoSink. induction v as [|ent rest IH]; intros f r infoSink.
  - exists [], [], false. simpl. rewrite !app_nil_r, orb_false_r.
    repeat split. constructor.
  - simpl.
    destruct (call_recording f ent r infoSink) as [(r3 & b & s & ->) | (r1 & ->)].
    + match goal with
      | |- context [TResolverAdaptor.std_for_each mem rest f ?r' infoSink] =>
          destruct (IH f r' infoSink) as (cs & msgs & failed & IHr);
          destruct (TResolverAdaptor.std_for_each mem rest f r' infoSink)
            as [[[f' v'] r'0] sink']
      end.
      destruct IHr as (Htr & Hcalls & Hcount & Hinfo & Hstage & Herr).
      eexists _, msgs, failed. split; [by apply trace_valid |].
      simpl in Hcalls. rewrite Hcalls, <- !app_assoc. simpl.
      repeat split; try done. by rewrite Hcount.
    + match goal with
      | |- context [TResolverAdaptor.std_for_each mem rest ?f1 ?r' ?s1] =>
          destruct (IH f1 r' s1) as (cs & msgs & failed & IHr);
          destruct (TResolverAdaptor.std_for_each mem rest f1 r' s1)
            as [[[f' v'] r'0] sink']
      end.
      destruct IHr as (Htr & Hcalls & Hcount & Hinfo & Hstage & Herr).
      simpl in Htr. eexists _, _, true. split; [eapply trace_invalid, Htr |].
      simpl in *. rewrite Hcalls, Hinfo, <- !app_assoc. simpl.
      repeat split; try done.
      * by rewrite Hcount.
      * rewrite Herr. by rewrite orb_true_r.
Qed.

(** Logging does not change what the adaptor does: the function object,
    the entries and the sink come out the same, and the resolver inside is
    the one a run without the log ends with. *)
Lemma call_recording_inner (f : TResolverAdaptor) (ent : TVarEntryInfo)
    (r : Recording R) (infoSink : TInfoSink) :
  let '(f', ent', r', infoSink') := TResolverAdaptor.call mem f ent r infoSink in
  TResolverAdaptor.call mem f ent (inner r) infoSink = (f', ent', inner r', infoSink').
Proof.
  unfold TResolverAdaptor.call. simpl.
  destruct (validateBinding _ _ _ _ (inner r)) as [[|] r1]; simpl; [| done].
  destruct (resolveBinding _ _ _ _ r1) as [b r2]; simpl.
  by destruct (resolveSet _ _ _ _ r2) as [s r3].
Qed.

Lemma std_for_each_recording (v : TVarLiveMap) :
  ∀ (f : TResolverAdaptor) (r : Recording R) (infoSink : TInfoSink),
    let '(f', v', r', infoSink') :=
      TResolverAdaptor.std_for_each mem v f r infoSink in
    TResolverAdaptor.std_for_each mem v f (inner r) infoSink =
    (f', v', inner r', infoSink').
Proof.
  induction v as [|ent rest IH]; intros f r infoSink; [done |].
  simpl. pose proof (call_recording_inner f ent r infoSink) as Hcall.
  destruct (TResolverAdaptor.call mem f ent r infoSink) as [[[f1 ent1] r1] sink1].
  rewrite Hcall. specialize (IH f1 r1 sink1).
  destruct (TResolverAdaptor.std_for_each mem rest f1 r1 sink1) as [[[f2 v2] r2] sink2].
  by rewrite IH.
Qed.

End AdaptorFacts.

(** ** The absent resolver and the preconditions *)

Section Preconditions.
Context `{TQualifierPredicates} `{StdSort} {R : Type} `{TIoMapResolver R}.

(** C7: without a resolver, [addStage] returns [true] and leaves the
    program, every symbol node of it included, and the sink exactly as they
    were. *)
Theorem addStage_no_resolver (stage : EShLanguage) (intermediate : TIntermediate)
    (infoSink : TInfoSink) :
  ∃ out,
    TIoMapper.addStage (R := R) stage intermediate infoSink None = Some out ∧
    returned out = true ∧
    program out = intermediate ∧
    (∀ base, getQualifier (symbols (program out) base) =
             getQualifier (symbols intermediate base)) ∧
    sink out = infoSink.
Proof. by eexists. Qed.

(** C10: the test for an absent resolver comes first.  Without a resolver
    the call succeeds on every program, one with another number of entry
    points than one, a recursive one or one without a root included; and a
    call that returns [false] was given a resolver. *)
Theorem absent_resolver_precedes_preconditions (stage : EShLanguage)
    (infoSink : TInfoSink) :
  (∀ n recursive root entry mem,
     returned <$> TIoMapper.addStage (R := R) stage
       (mkIntermediate n recursive root entry mem) infoSink None = Some true) ∧
  (∀ intermediate resolver out,
     TIoMapper.addStage (R := R) stage intermediate infoSink resolver = Some out →
     returned out = false → is_Some resolver ∧ malformed intermediate).
Proof.
  split; [done |].
  intros intermediate [res|] out; [| by intros [= <-]].
  unfold TIoMapper.addStage, malformed.
  case_bool_decide as Hn; simpl.
  { intros _ _. split; [done | by left]. }
  destruct (isRecursive intermediate) eqn:Hrec; simpl.
  { intros _ _. split; [done | by right; left]. }
  destruct (getTreeRoot intermediate) as [root|]; [| by intros _ _; split; [| right; right]].
  destruct (TIoMapper.collect intermediate root) as [v|]; [| done]. simpl.
  destruct (TResolverAdaptor.std_for_each _ _ _ _ _) as [[[f' v'] r'] sink'].
  by intros [= <-].
Qed.

(** The early exits taken when a resolver is there. *)
Lemma early_exit_outcome (stage : EShLanguage) (intermediate : TIntermediate)
    (infoSink : TInfoSink) (res : R) :
  malformed intermediate →
  TIoMapper.addStage stage intermediate infoSink (Some res) =
  Some (mkOutcome false intermediate infoSink (Some res) []).
Proof.
  unfold malformed, TIoMapper.addStage. intros [Hn | [Hrec | Hroot]].
  - by rewrite bool_decide_eq_true_2.
  - rewrite Hrec, orb_true_r. done.
  - rewrite Hroot. by destruct (_ || _).
Qed.

(** C6, as the code has it: when a resolver is supplied and the program does
    not have exactly one entry point, or is recursive, or has no tree root,
    [addStage] returns [false], the sink receives nothing, no symbol node is
    written and the resolver is left as it was. *)
Theorem addStage_malformed (stage : EShLanguage) (intermediate : TIntermediate)
    (infoSink : TInfoSink) (res : R) :
  malformed intermediate →
  ∃ out,
    TIoMapper.addStage stage intermediate infoSink (Some res) = Some out ∧
    returned out = false ∧
    sink out = infoSink ∧
    program out = intermediate ∧
    resolverAfter out = Some res.
Proof.
  intros Hbad. eexists. split; [by apply early_exit_outcome |]. done.
Qed.

(** With a resolver and a well-formed program the call always comes back
    with [true]: the flag it tests is the one of the local function object,
    which [std::for_each] never touches. *)
Lemma addStage_well_formed_returns_true (stage : EShLanguage)
    (intermediate : TIntermediate) (infoSink : TInfoSink) (res : R) :
  ¬ malformed intermediate →
  ∃ out, TIoMapper.addStage stage intermediate infoSink (Some res) = Some out ∧
         returned out = true.
Proof.
  unfold malformed, TIoMapper.addStage. intros Hwf.
  rewrite bool_decide_eq_false_2 by tauto.
  destruct (isRecursive intermediate); [tauto |]. simpl.
  destruct (getTreeRoot intermediate) as [root|]; [| tauto].
  destruct (collect_terminates intermediate root) as [v ->]. simpl.
  destruct (TResolverAdaptor.std_for_each _ _ _ _ _) as [[[f' v'] r'] sink'].
  eauto.
Qed.

End Preconditions.

(** C6, witness: the tree of the example declared with two entry points. *)
Lemma addStage_malformed_witness :
  malformed twoEntryProgram ∧
  ∃ out,
    @TIoMapper.addStage markerPredicates insertionSort () acceptingResolver
      EShLangVertex twoEntryProgram (mkInfoSink []) (Some ()) = Some out ∧
    returned out = false ∧
    sink out = mkInfoSink [] ∧
    program out = twoEntryProgram ∧
    resolverAfter out = Some ().
Proof.
  split; [left; done |].
  apply (@addStage_malformed markerPredicates insertionSort () acceptingResolver).
  left. done.
Defined.

(** C6, as stated, fails: a program with two entry points and no resolver
    makes [addStage] return [true]. *)
Lemma no_resolver_malformed_returns_true :
  ¬ (malformed twoEntryProgram →
     returned <$> @TIoMapper.addStage markerPredicates insertionSort () acceptingResolver
                    EShLangVertex twoEntryProgram (mkInfoSink []) None = Some false).
Proof.
  intros Hclaim. assert (Hm : malformed twoEntryProgram) by (left; done).
  apply Hclaim in Hm. vm_compute in Hm. discriminate.
Qed.

(** ** Validation failures and the value returned *)

(** C1 at a concrete input: the resolver refuses [B], which is not live.
    The message is sent, and still the call returns [true] and the
    write-back runs: the occurrence of [B] has its binding and set
    overwritten with the zeros its entry was initialised with, and the
    occurrences of [A], which passed validation, are written as well.  The
    stage as specified returns [false] on the same input. *)
Lemma addStage_validation_failure_returns_true :
  @validationFails markerPredicates insertionSort () liveOnlyResolver
    EShLangFragment exampleProgram (mkInfoSink []) () = true ∧
  returned <$> @addStageAsSpecified markerPredicates insertionSort () liveOnlyResolver
                 EShLangFragment exampleProgram (mkInfoSink []) (Some ()) = Some false ∧
  ∃ out,
    @TIoMapper.addStage markerPredicates insertionSort () liveOnlyResolver
      EShLangFragment exampleProgram (mkInfoSink []) (Some ()) = Some out ∧
    info (sink out) = [(EPrefixInternalError, "Invalid binding: B")] ∧
    returned out = true ∧
    getQualifier (symbols exampleProgram 1%nat) = mkQualifier EvqUniform bindingEnd setEnd ∧
    getQualifier (symbols (program out) 1%nat) = mkQualifier EvqUniform 0 0 ∧
    getQualifier (symbols exampleProgram 0%nat) = mkQualifier EvqUniform 2 setEnd ∧
    getQualifier (symbols (program out) 0%nat) = mkQualifier EvqUniform 2 0.
Proof.
  split; [by vm_compute |]. split; [by vm_compute |].
  eexists. split; [vm_compute; reflexivity |]. by vm_compute.
Qed.

(** ** Liveness and the order of the traversals *)

(** An all-code traverser that meets a variable whose entry is already live
    clears the flag. *)
Lemma visitSymbol_all_code_clears_live :
  TVarGatherTraverser.visitSymbol exampleProgram 0%nat
    (mkLiveTraverser true [] ∅, [mkEntry 1 0%nat true 0 0]) =
  (mkLiveTraverser true [] ∅, [mkEntry 1 0%nat false 0 0]).
Proof. by vm_compute. Qed.

(** The two orders on the example: [A] is used in [main], and is live after
    all-code-then-live but not after live-then-all-code. *)
Lemma collect_order_matters :
  TIoMapper.collect exampleProgram exampleRoot =
    Some [mkEntry 1 0%nat true 0 0; mkEntry 2 1%nat false 0 0] ∧
  collectLiveFirst exampleProgram exampleRoot =
    Some [mkEntry 1 0%nat false 0 0; mkEntry 2 1%nat false 0 0].
Proof. split; by vm_compute. Qed.

(** ** Sorting *)

Section SortFacts.
Variable comp : TVarEntryInfo → TVarEntryInfo → bool.

Lemma insert_by_Permutation x v : insert_by comp x v ≡ₚ x :: v.
Proof.
  induction v as [|y rest IH]; simpl; [done |].
  destruct (comp x y); [done |]. rewrite IH. apply Permutation_swap.
Qed.

Lemma insertion_sort_Permutation v : insertion_sort comp v ≡ₚ v.
Proof.
  induction v as [|x v IH]; [done |].
  unfold insertion_sort in *. simpl. by rewrite insert_by_Permutation, IH.
Qed.

Hypothesis Hstrict : strict_order comp.

Lemma strict_order_asym a b : comp a b = true → comp b a = false.
Proof.
  destruct Hstrict as [Hirr Htrans]. intros Hab.
  destruct (comp b a) eqn:Hba; [| done].
  by rewrite <- (Hirr a), (Htrans a b a).
Qed.

Lemma insert_by_sorted x v : sorted_by comp v → sorted_by comp (insert_by comp x v).
Proof.
  destruct Hstrict as [Hirr Htrans]. unfold sorted_by.
  induction v as [|y rest IH]; intros Hs; simpl.
  - repeat constructor.
  - apply StronglySorted_inv in Hs as [Hs Hall].
    destruct (comp x y) eqn:Hxy.
    + constructor; [by constructor |].
      constructor; [by apply strict_order_asym |].
      apply (Forall_impl _ _ _ Hall). intros b Hby.
      destruct (comp b x) eqn:Hbx; [| done].
      by rewrite <- Hby, (Htrans b x y).
    + constructor; [by apply IH |].
      rewrite insert_by_Permutation. by constructor.
Qed.

Lemma insertion_sort_sorted v : sorted_by comp (insertion_sort comp v).
Proof.
  induction v as [|x v IH]; [constructor |].
  unfold insertion_sort in *. simpl. by apply insert_by_sorted.
Qed.

End SortFacts.

Lemma insertionSort_contract : SortContract insertionSort.
Proof.
  intros comp v Hstrict. split.
  - apply insertion_sort_Permutation.
  - by apply insertion_sort_sorted.
Qed.

Lemma reverseInsertionSort_contract : SortContract reverseInsertionSort.
Proof.
  intros comp v Hstrict. simpl. split.
  - rewrite insertion_sort_Permutation. apply reverse_Permutation.
  - by apply insertion_sort_sorted.
Qed.

Lemma operator_lt_strict : strict_order operator_lt.
Proof.
  unfold operator_lt. split.
  - intros a. apply bool_decide_eq_false. lia.
  - intros a b c. rewrite !bool_decide_eq_true. lia.
Qed.

(** Entries of a list with distinct ids are told apart by their ids. *)
Lemma ids_NoDup_inj (v : TVarLiveMap) a b :
  NoDup (ids v) → a ∈ v → b ∈ v → id a = id b → a = b.
Proof.
  unfold ids. induction v as [|e v IH]; intros Hnd Ha Hb Hid; [by inv Ha |].
  csimpl in Hnd. apply NoDup_cons in Hnd as [Hnotin Hnd].
  apply elem_of_cons in Ha as [-> | Ha]; apply elem_of_cons in Hb as [-> | Hb].
  - done.
  - exfalso. apply Hnotin. rewrite Hid. by apply list_elem_of_fmap_2.
  - exfalso. apply Hnotin. rewrite <- Hid. by apply list_elem_of_fmap_2.
  - by apply IH.
Qed.

(** A comparator that decides between any two entries of different id
    leaves a sort no freedom on a list with distinct ids. *)
Lemma sort_unique (S1 S2 : StdSort) comp v :
  SortContract S1 → SortContract S2 → strict_order comp →
  (∀ a b, id a ≠ id b → comp a b = true ∨ comp b a = true) →
  NoDup (ids v) →
  @std_sort S1 comp v = @std_sort S2 comp v.
Proof.
  intros H1 H2 Hstrict Htotal Hnd.
  destruct (H1 comp v Hstrict) as [Hp1 Hs1], (H2 comp v Hstrict) as [Hp2 Hs2].
  apply (StronglySorted_unique_strong (λ a b, comp b a = false)); [| done | done |].
  - intros a b Ha Hb Hba Hab. rewrite Hp1 in Ha. rewrite Hp2 in Hb.
    apply (ids_NoDup_inj v); [done..|].
    destruct (decide (id a = id b)) as [|Hne]; [done |].
    destruct (Htotal a b Hne); congruence.
  - by rewrite Hp1, Hp2.
Qed.

Lemma operator_lt_total a b : id a ≠ id b → operator_lt a b = true ∨ operator_lt b a = true.
Proof. unfold operator_lt. rewrite !bool_decide_eq_true. lia. Qed.

(** ** The entry list between collection and write-back *)

Lemma traverse_sorted intermediate node :
  ∀ st, StronglySorted Z.lt (ids st.2) →
        StronglySorted Z.lt (ids (TVarGatherTraverser.traverse intermediate node st).2).
Proof.
  unfold TVarGatherTraverser.traverse.
  induction node as [base | op name sequence IH] using TIntermNode_tree_ind;
    intros [it v] Hs.
  - rewrite traverse_symbol, visitSymbol_gatherStep. by apply gatherStep_sorted.
  - rewrite traverse_aggregate.
    assert (Hva : StronglySorted Z.lt
              (ids (TVarGatherTraverser.visitAggregate intermediate op name (it, v)).2))
      by done.
    revert Hva. generalize (TVarGatherTraverser.visitAggregate intermediate op name (it, v)).
    induction IH as [| child rest Hchild _ IHrest]; intros st Hst; [done |].
    simpl. by apply IHrest, Hchild.
Qed.

Lemma liveLoop_sorted fuel intermediate :
  ∀ st st', TIoMapper.liveLoop fuel intermediate st = Some st' →
            StronglySorted Z.lt (ids st.2) → StronglySorted Z.lt (ids st'.2).
Proof.
  induction fuel as [|fuel IH]; intros [it v] st'; [done |].
  simpl. destruct (functions it) as [|function rest].
  - by intros [= <-].
  - intros Hloop Hs. eapply IH; [done |]. by apply traverse_sorted.
Qed.

Lemma collect_sorted intermediate root v :
  TIoMapper.collect intermediate root = Some v → StronglySorted Z.lt (ids v).
Proof.
  unfold TIoMapper.collect.
  destruct (TVarGatherTraverser.traverse _ _ _) as [it v0] eqn:Hall.
  intros Hloop. apply fmap_Some in Hloop as (st' & Hloop & ->).
  eapply liveLoop_sorted; [done |]. simpl.
  change v0 with (it, v0).2. rewrite <- Hall. apply traverse_sorted. constructor.
Qed.

Lemma std_for_each_ids {R : Type} `{TIoMapResolver R} mem v :
  ∀ f (r : R) infoSink,
    ids (TResolverAdaptor.std_for_each mem v f r infoSink).1.1.2 = ids v.
Proof.
  induction v as [|ent rest IH]; intros f r infoSink; [done |].
  simpl. unfold TResolverAdaptor.call.
  destruct (validateBinding _ _ _ _ r) as [[|] r1].
  - destruct (resolveBinding _ _ _ _ r1) as [b r2].
    destruct (resolveSet _ _ _ _ r2) as [s r3].
    specialize (IH f r3 infoSink).
    destruct (TResolverAdaptor.std_for_each _ _ _ _ _) as [[[f' v'] r'] sink'].
    simpl in *. unfold ids in *. csimpl. by rewrite IH.
  - match goal with
    | |- context [TResolverAdaptor.std_for_each mem rest ?f1 ?r' ?s1] =>
        specialize (IH f1 r' s1);
        destruct (TResolverAdaptor.std_for_each mem rest f1 r' s1)
          as [[[f' v'] r'0] sink']
    end.
    simpl in *. unfold ids in *. csimpl. by rewrite IH.
Qed.

(** ** The write-back *)

Lemma getId_rewritten v s : getId (rewritten v s) = getId s.
Proof.
  unfold rewritten. destruct (List.find _ _) as [e|]; [| done].
  by repeat case_decide.
Qed.

Lemma rewritten_idemp v s : rewritten v (rewritten v s) = rewritten v s.
Proof.
  unfold rewritten at 1. rewrite getId_rewritten.
  unfold rewritten. destruct (List.find _ _) as [e|]; [| done].
  by repeat case_decide.
Qed.

Lemma visitSymbol_rewritten v base mem p :
  TVarSetTraverser.visitSymbol v base mem p =
  if decide (p = base) then rewritten v (mem base) else mem p.
Proof.
  unfold TVarSetTraverser.visitSymbol, rewritten, std_find, operator_eq. simpl.
  destruct (List.find _ _) as [e|] eqn:Hfind; [| by case_decide; subst].
  apply find_some in Hfind as [_ Heq]. rewrite Heq. simpl.
  destruct (decide (p = base)) as [-> | Hne].
  - repeat case_decide; by rewrite ?fn_lookup_insert.
  - repeat case_decide; by rewrite ?fn_lookup_insert_ne by done.
Qed.

Lemma set_traverse_fold v node :
  ∀ mem, TVarSetTraverser.traverse v node mem =
         fold_left (λ m base, TVarSetTraverser.visitSymbol v base m) (symbolsOf node) mem.
Proof.
  unfold TVarSetTraverser.traverse.
  induction node as [base | op name sequence IH] using TIntermNode_tree_ind; intros mem.
  - done.
  - rewrite traverse_aggregate. simpl symbolsOf.
    revert mem. induction IH as [| child rest Hchild _ IHrest]; intros mem; [done |].
    simpl. rewrite Hchild, fold_left_app. apply IHrest.
Qed.

Lemma fold_visitSymbol_rewritten v bases :
  ∀ mem p,
    fold_left (λ m base, TVarSetTraverser.visitSymbol v base m) bases mem p =
    if decide (p ∈ bases) then rewritten v (mem p) else mem p.
Proof.
  induction bases as [|b bases IH]; intros mem p; [done |].
  simpl. rewrite IH, visitSymbol_rewritten.
  destruct (decide (p = b)) as [-> | Hne].
  - rewrite rewritten_idemp. rewrite (decide_True (P := b ∈ b :: bases)) by left.
    by case_decide.
  - destruct (decide (p ∈ bases)) as [Hin | Hnin].
    + by rewrite decide_True by (by right).
    + rewrite decide_False; [done |]. rewrite elem_of_cons. tauto.
Qed.

Lemma find_by_id_NoDup (v : TVarLiveMap) e :
  NoDup (ids v) → e ∈ v →
  List.find (λ e', bool_decide (id e' = id e)) v = Some e.
Proof.
  unfold ids. induction v as [|e0 v IH]; intros Hnd Hin; [by inv Hin |].
  csimpl in Hnd. apply NoDup_cons in Hnd as [Hnotin Hnd]. simpl.
  apply elem_of_cons in Hin as [-> | Hin].
  - by rewrite bool_decide_eq_true_2.
  - rewrite bool_decide_eq_false_2; [by apply IH |].
    intros Heq. apply Hnotin. rewrite Heq. by apply list_elem_of_fmap_2.
Qed.

Lemma find_by_id_absent (v : TVarLiveMap) x :
  x ∉ ids v → List.find (λ e', bool_decide (id e' = x)) v = None.
Proof.
  unfold ids. induction v as [|e0 v IH]; intros Hnotin; [done |].
  simpl. csimpl in Hnotin. apply not_elem_of_cons in Hnotin as [Hne Hnotin].
  rewrite bool_decide_eq_false_2 by done. by apply IH.
Qed.

(** ** The stage as a whole *)

Section StageFacts.
Context `{TQualifierPredicates} {R : Type} `{TIoMapResolver R}.

(** The path of a call with a resolver on a well-formed program. *)
Lemma addStage_well_formed (S : StdSort) stage intermediate infoSink (res : R) root v0 :
  ¬ malformed intermediate →
  getTreeRoot intermediate = Some root →
  TIoMapper.collect intermediate root = Some v0 →
  TIoMapper.addStage stage intermediate infoSink (Some res) =
  (let v1 := std_sort (TOrderByPriority (symbols intermediate)) v0 in
   let '(_, v2, r, infoSink') :=
     TResolverAdaptor.std_for_each (symbols intermediate) v1
       (mkAdaptor stage false) res infoSink in
   let v3 := std_sort operator_lt v2 in
   Some (mkOutcome true
           (setSymbols (TVarSetTraverser.traverse v3 root (symbols intermediate))
              intermediate)
           infoSink' (Some r) v3)).
Proof.
  unfold malformed, TIoMapper.addStage. intros Hwf Hroot Hcollect.
  rewrite bool_decide_eq_false_2 by tauto.
  destruct (isRecursive intermediate); [tauto |]. simpl.
  rewrite Hroot, Hcollect. simpl.
  by destruct (TResolverAdaptor.std_for_each _ _ _ _ _) as [[[f' v'] r'] sink'].
Qed.

(** C5, as the code has it: after a call that returned [true], the entry
    list has one entry per id; an occurrence in the tree whose id has an
    entry carries the entry's [newBinding], converted to the 16-bit field,
    as its binding unless [newBinding] is -1, in which case the binding is
    as before, and likewise [newSet], converted to the 7-bit field, as its
    set; a value the field can hold is carried as it is; so two occurrences
    of one variable agree on every value that was resolved; and an
    occurrence whose id has no entry, like every node outside the tree, is
    as before. *)
Theorem addStage_write_back (S : StdSort) stage intermediate infoSink
    (resolver : option R) out :
  SortContract S →
  TIoMapper.addStage stage intermediate infoSink resolver = Some out →
  returned out = true →
  NoDup (ids (varMap out)) ∧
  (∀ base e,
     base ∈ treeSymbols intermediate → e ∈ varMap out →
     id e = getId (symbols intermediate base) →
     layoutBinding (getQualifier (symbols (program out) base)) =
       (if decide (newBinding e = -1)
        then layoutBinding (getQualifier (symbols intermediate base))
        else toBitField layoutBindingBits (newBinding e)) ∧
     layoutSet (getQualifier (symbols (program out) base)) =
       (if decide (newSet e = -1)
        then layoutSet (getQualifier (symbols intermediate base))
        else toBitField layoutSetBits (newSet e)) ∧
     (0 ≤ newBinding e < 2 ^ layoutBindingBits →
      layoutBinding (getQualifier (symbols (program out) base)) = newBinding e) ∧
     (0 ≤ newSet e < 2 ^ layoutSetBits →
      layoutSet (getQualifier (symbols (program out) base)) = newSet e)) ∧
  (∀ base1 base2 e,
     base1 ∈ treeSymbols intermediate → base2 ∈ treeSymbols intermediate →
     e ∈ varMap out →
     id e = getId (symbols intermediate base1) →
     id e = getId (symbols intermediate base2) →
     (newBinding e ≠ -1 →
      layoutBinding (getQualifier (symbols (program out) base1)) =
      layoutBinding (getQualifier (symbols (program out) base2))) ∧
     (newSet e ≠ -1 →
      layoutSet (getQualifier (symbols (program out) base1)) =
      layoutSet (getQualifier (symbols (program out) base2)))) ∧
  (∀ base,
     base ∉ treeSymbols intermediate ∨
     getId (symbols intermediate base) ∉ ids (varMap out) →
     symbols (program out) base = symbols intermediate base).
Proof.
  intros Hsort Hadd Hret.
  assert (Hmain :
    NoDup (ids (varMap out)) ∧
    ∀ base, symbols (program out) base =
            if decide (base ∈ treeSymbols intermediate)
            then rewritten (varMap out) (symbols intermediate base)
            else symbols intermediate base).
  { destruct resolver as [res|].
    2: { injection Hadd as <-. simpl. split; [constructor |].
         intros base. by case_decide. }
    destruct (decide (malformed intermediate)) as [Hbad | Hwf].
    { rewrite (early_exit_outcome _ _ _ _ Hbad) in Hadd.
      injection Hadd as <-. done. }
    destruct (getTreeRoot intermediate) as [root|] eqn:Hroot;
      [| exfalso; apply Hwf; by right; right].
    destruct (collect_terminates intermediate root) as [v0 Hcollect].
    rewrite (addStage_well_formed S _ _ _ _ root v0 Hwf Hroot Hcollect) in Hadd.
    simpl in Hadd.
    pose proof (std_for_each_ids (symbols intermediate)
      (std_sort (TOrderByPriority (symbols intermediate)) v0)
      (mkAdaptor stage false) res infoSink) as Hids.
    destruct (TResolverAdaptor.std_for_each _ _ _ _ _) as [[[f' v2] r'] sink'].
    simpl in Hids. injection Hadd as <-. simpl.
    destruct (Hsort (TOrderByPriority (symbols intermediate)) v0
                (TOrderByPriority_strict _)) as [Hp1 _].
    destruct (Hsort operator_lt v2 operator_lt_strict) as [Hp3 _].
    split.
    - unfold ids in *. rewrite Hp3, Hids, Hp1.
      by apply StronglySorted_lt_NoDup, collect_sorted with intermediate root.
    - intros base. rewrite set_traverse_fold, fold_visitSymbol_rewritten.
      unfold treeSymbols. by rewrite Hroot. }
  destruct Hmain as [Hnd Hsym].
  assert (Hfound : ∀ base e,
    base ∈ treeSymbols intermediate → e ∈ varMap out →
    id e = getId (symbols intermediate base) →
    symbols (program out) base =
      (let s := symbols intermediate base in
       let s1 := if decide (newBinding e ≠ -1)
                 then setLayoutBinding (newBinding e) s else s in
       if decide (newSet e ≠ -1) then setLayoutSet (newSet e) s1 else s1)).
  { intros base e Hbase He Hid. rewrite Hsym, decide_True by done.
    unfold rewritten. rewrite <- Hid. by rewrite (find_by_id_NoDup _ e Hnd He). }
  assert (Hvalues : ∀ base e,
    base ∈ treeSymbols intermediate → e ∈ varMap out →
    id e = getId (symbols intermediate base) →
    layoutBinding (getQualifier (symbols (program out) base)) =
      (if decide (newBinding e = -1)
       then layoutBinding (getQualifier (symbols intermediate base))
       else toBitField layoutBindingBits (newBinding e)) ∧
    layoutSet (getQualifier (symbols (program out) base)) =
      (if decide (newSet e = -1)
       then layoutSet (getQualifier (symbols intermediate base))
       else toBitField layoutSetBits (newSet e))).
  { intros base e Hbase He Hid. rewrite (Hfound base e Hbase He Hid).
    cbv zeta. unfold setLayoutBinding, setLayoutSet, getQualifier.
    by repeat case_decide. }
  split; [done |]. split; [| split].
  - intros base e Hbase He Hid.
    destruct (Hvalues base e Hbase He Hid) as [Hl Hs].
    split; [done |]. split; [done |]. split.
    + intros Hrange. rewrite Hl, decide_False by lia.
      unfold toBitField. by apply Z.mod_small.
    + intros Hrange. rewrite Hs, decide_False by lia.
      unfold toBitField. by apply Z.mod_small.
  - intros base1 base2 e Hb1 Hb2 He Hid1 Hid2.
    destruct (Hvalues base1 e Hb1 He Hid1) as [Hl1 Hs1].
    destruct (Hvalues base2 e Hb2 He Hid2) as [Hl2 Hs2].
    rewrite Hl1, Hl2, Hs1, Hs2. split; intros Hne; by rewrite !decide_False by done.
  - intros base [Hout | Hnoentry]; rewrite Hsym.
    + by rewrite decide_False.
    + case_decide; [| done]. unfold rewritten.
      by rewrite find_by_id_absent.
Qed.

(** Whatever [std::sort] does with entries it is free to order either way,
    the call comes out the same: there are no such entries. *)
Lemma addStage_sort_independent (S1 S2 : StdSort) stage intermediate infoSink
    (resolver : option R) :
  SortContract S1 → SortContract S2 →
  TIoMapper.addStage (Sort := S1) stage intermediate infoSink resolver =
  TIoMapper.addStage (Sort := S2) stage intermediate infoSink resolver.
Proof.
  intros Hc1 Hc2. destruct resolver as [res|]; [| done].
  destruct (decide (malformed intermediate)) as [Hbad | Hwf].
  { by rewrite !(early_exit_outcome _ _ _ _ Hbad). }
  destruct (getTreeRoot intermediate) as [root|] eqn:Hroot;
    [| exfalso; apply Hwf; by right; right].
  destruct (collect_terminates intermediate root) as [v0 Hcollect].
  rewrite (addStage_well_formed S1 _ _ _ _ root v0 Hwf Hroot Hcollect).
  rewrite (addStage_well_formed S2 _ _ _ _ root v0 Hwf Hroot Hcollect).
  assert (Hnd0 : NoDup (ids v0))
    by (by apply StronglySorted_lt_NoDup, collect_sorted with intermediate root).
  simpl.
  rewrite (sort_unique S1 S2 (TOrderByPriority (symbols intermediate)) v0 Hc1 Hc2
             (TOrderByPriority_strict _) (TOrderByPriority_total _) Hnd0).
  pose proof (std_for_each_ids (symbols intermediate)
    (@std_sort S2 (TOrderByPriority (symbols intermediate)) v0)
    (mkAdaptor stage false) res infoSink) as Hids.
  destruct (TResolverAdaptor.std_for_each _ _ _ _ _) as [[[f' v2] r'] sink'].
  simpl in Hids.
  assert (Hnd2 : NoDup (ids v2)).
  { rewrite Hids. unfold ids.
    destruct (Hc2 (TOrderByPriority (symbols intermediate)) v0
                (TOrderByPriority_strict _)) as [Hp _].
    by rewrite Hp. }
  by rewrite (sort_unique S1 S2 operator_lt v2 Hc1 Hc2
                operator_lt_strict operator_lt_total Hnd2).
Qed.

Lemma addStage_returns (S : StdSort) stage intermediate infoSink (resolver : option R) :
  is_Some (TIoMapper.addStage stage intermediate infoSink resolver).
Proof.
  destruct resolver as [res|]; [| done].
  destruct (decide (malformed intermediate)) as [Hbad | Hwf].
  - by rewrite (early_exit_outcome _ _ _ _ Hbad).
  - destruct (addStage_well_formed_returns_true stage intermediate infoSink res Hwf)
      as (out & -> & _). done.
Qed.

(** As specified, a stage in which some entry fails validation returns
    [false] and writes nothing. *)
Lemma addStageAsSpecified_failure (S : StdSort) stage intermediate infoSink (res : R) :
  ¬ malformed intermediate →
  validationFails stage intermediate infoSink res = true →
  ∃ out, addStageAsSpecified stage intermediate infoSink (Some res) = Some out ∧
         returned out = false ∧ program out = intermediate.
Proof.
  unfold malformed, validationFails, addStageAsSpecified. intros Hwf.
  rewrite bool_decide_eq_false_2 by tauto.
  destruct (isRecursive intermediate); [tauto |]. simpl.
  destruct (getTreeRoot intermediate) as [root|]; [| done].
  destruct (TIoMapper.collect intermediate root) as [v0|]; [| done]. simpl.
  destruct (TResolverAdaptor.std_for_each _ _ _ _ _) as [[[f' v'] r'] sink'].
  simpl. intros ->. by eexists.
Qed.

(** The code agrees with the specification on every stage in which no
    entry fails validation, and on those only. *)
Lemma addStage_as_specified_iff (S : StdSort) stage intermediate infoSink (res : R) :
  ¬ malformed intermediate →
  TIoMapper.addStage stage intermediate infoSink (Some res) =
    addStageAsSpecified stage intermediate infoSink (Some res) ↔
  validationFails stage intermediate infoSink res = false.
Proof.
  unfold malformed, validationFails, addStageAsSpecified, TIoMapper.addStage.
  intros Hwf. rewrite bool_decide_eq_false_2 by tauto.
  destruct (isRecursive intermediate); [tauto |]. simpl.
  destruct (getTreeRoot intermediate) as [root|] eqn:Hroot; [| tauto].
  destruct (collect_terminates intermediate root) as [v0 ->]. simpl.
  destruct (TResolverAdaptor.std_for_each _ _ _ _ _) as [[[f' v'] r'] sink'].
  simpl. destruct (error f'); simpl; [| done].
  split; [| done]. intros [= ?].
Qed.

End StageFacts.

(** C9: the calls the resolver receives, with their arguments and in their
    order, do not depend on how [std::sort] is implemented: any two
    implementations that meet its contract lead to the same log, because
    the entries have distinct ids and each comparator decides between any
    two entries of different id.  The call returns in either case. *)
Theorem addStage_resolver_calls_deterministic `{TQualifierPredicates}
    {R : Type} `{TIoMapResolver R} (S1 S2 : StdSort) stage intermediate infoSink
    (res : R) :
  SortContract S1 → SortContract S2 →
  resolverLog (TIoMapper.addStage (Sort := S1) stage intermediate infoSink
                 (Some (mkRecording res []))) =
  resolverLog (TIoMapper.addStage (Sort := S2) stage intermediate infoSink
                 (Some (mkRecording res []))) ∧
  is_Some (resolverLog (TIoMapper.addStage (Sort := S1) stage intermediate infoSink
                          (Some (mkRecording res [])))).
Proof.
  intros Hc1 Hc2. split.
  - by rewrite (addStage_sort_independent S1 S2).
  - destruct (decide (malformed intermediate)) as [Hbad | Hwf].
    + by rewrite (early_exit_outcome _ _ _ _ Hbad).
    + destruct (getTreeRoot intermediate) as [root|] eqn:Hroot;
        [| exfalso; apply Hwf; by right; right].
      destruct (collect_terminates intermediate root) as [v0 Hcollect].
      rewrite (addStage_well_formed S1 _ _ _ _ root v0 Hwf Hroot Hcollect). simpl.
      by destruct (TResolverAdaptor.std_for_each _ _ _ _ _) as [[[f' v2] r'] sink'].
Qed.

(** ** Witnesses *)

(** C5, witness: the example with the accepting resolver.  [B], which had no
    binding, ends with binding 10; both occurrences of [A] end in set 0. *)
Lemma addStage_write_back_witness :
  ∃ out,
    @TIoMapper.addStage markerPredicates insertionSort () acceptingResolver
      EShLangFragment exampleProgram (mkInfoSink []) (Some ()) = Some out ∧
    returned out = true ∧
    NoDup (ids (varMap out)) ∧
    layoutBinding (getQualifier (symbols (program out) 1%nat)) = 10 ∧
    layoutSet (getQualifier (symbols (program out) 0%nat)) =
    layoutSet (getQualifier (symbols (program out) 2%nat)).
Proof.
  eexists. split; [vm_compute; reflexivity |]. split; [reflexivity |].
  match goal with
  | |- NoDup (ids (varMap ?o)) ∧ _ =>
      destruct (@addStage_write_back markerPredicates () acceptingResolver
                  insertionSort EShLangFragment exampleProgram (mkInfoSink [])
                  (Some ()) o insertionSort_contract)
        as (Hnd & Hvalues & Hsame & _);
        [vm_compute; reflexivity | reflexivity |]
  end.
  split; [exact Hnd |]. split.
  - destruct (Hvalues 1%nat (mkEntry 2 1%nat false 10 0)) as [Hb _];
      [vm_compute; set_solver | vm_compute; set_solver | reflexivity |].
    exact Hb.
  - destruct (Hsame 0%nat 2%nat (mkEntry 1 0%nat true 2 0)) as [_ Hs];
      [vm_compute; set_solver | vm_compute; set_solver | vm_compute; set_solver
      | reflexivity | reflexivity |].
    apply Hs. done.
Defined.

(** C9, witness: insertion sort and insertion sort over the reversed list
    lead the accepting resolver through the same calls on the example. *)
Lemma addStage_resolver_calls_deterministic_witness :
  SortContract insertionSort ∧ SortContract reverseInsertionSort ∧
  resolverLog (@TIoMapper.addStage markerPredicates insertionSort
                 (Recording ()) (@recording_resolver () acceptingResolver)
                 EShLangFragment exampleProgram (mkInfoSink [])
                 (Some (mkRecording () []))) =
  resolverLog (@TIoMapper.addStage markerPredicates reverseInsertionSort
                 (Recording ()) (@recording_resolver () acceptingResolver)
                 EShLangFragment exampleProgram (mkInfoSink [])
                 (Some (mkRecording () []))).
Proof.
  split; [exact insertionSort_contract |].
  split; [exact reverseInsertionSort_contract |].
  apply (@addStage_resolver_calls_deterministic markerPredicates ()
           acceptingResolver insertionSort reverseInsertionSort).
  - exact insertionSort_contract.
  - exact reverseInsertionSort_contract.
Defined.

(** ** Liveness after the two traversals in the order of [addStage] *)

Section Liveness.
Variable intermediate : TIntermediate.

Lemma addFunctionCall_traverseAll name it :
  traverseAll (TLiveTraverser.addFunctionCall intermediate name it) = traverseAll it.
Proof.
  unfold TLiveTraverser.addFunctionCall, TLiveTraverser.pushFunction.
  case_decide; [done |]. by destruct (List.find _ _).
Qed.

Lemma seeCalls_traverseAll names : ∀ it,
  traverseAll (seeCalls intermediate names it) = traverseAll it.
Proof.
  unfold seeCalls. induction names as [|name names IH]; intros it; [done |].
  simpl. by rewrite IH, addFunctionCall_traverseAll.
Qed.

Lemma seeCalls_app names1 names2 it :
  seeCalls intermediate (names1 ++ names2) it =
  seeCalls intermediate names2 (seeCalls intermediate names1 it).
Proof. unfold seeCalls. apply fold_left_app. Qed.

(** A live-code traverser meets the calls and the symbols of a tree; the two
    do not interfere. *)
Lemma traverse_live node :
  ∀ it v, traverseAll it = false →
    TVarGatherTraverser.traverse intermediate node (it, v) =
    (seeCalls intermediate (callsOf node) it,
     fold_left (gatherStep false intermediate) (symbolsOf node) v).
Proof.
  unfold TVarGatherTraverser.traverse.
  induction node as [base | op name sequence IH] using TIntermNode_tree_ind;
    intros it v Hlive.
  - by rewrite traverse_symbol, visitSymbol_gatherStep, Hlive.
  - rewrite traverse_aggregate.
    unfold TVarGatherTraverser.visitAggregate at 2.
    unfold TLiveTraverser.visitAggregate. simpl fst. simpl snd. rewrite Hlive.
    simpl callsOf. simpl symbolsOf. rewrite seeCalls_app.
    assert (Hpre : traverseAll
              (if negb false && bool_decide (op = EOpFunctionCall)
               then TLiveTraverser.addFunctionCall intermediate name it else it) = false).
    { destruct (_ && _); [by rewrite addFunctionCall_traverseAll | done]. }
    assert (Heq : seeCalls intermediate (if bool_decide (op = EOpFunctionCall)
                                         then [name] else []) it =
                  (if negb false && bool_decide (op = EOpFunctionCall)
                   then TLiveTraverser.addFunctionCall intermediate name it else it)).
    { simpl. by destruct (bool_decide _). }
    rewrite Heq. revert Hpre.
    generalize (if negb false && bool_decide (op = EOpFunctionCall)
                then TLiveTraverser.addFunctionCall intermediate name it else it).
    clear Heq Hlive it. intros it Hlive. revert it v Hlive.
    induction IH as [| child rest Hchild _ IHrest]; intros it v Hlive; [done |].
    simpl. rewrite Hchild by done. rewrite seeCalls_app, fold_left_app.
    apply IHrest. by rewrite seeCalls_traverseAll.
Qed.

(** *** What meeting calls does to the work list *)

Lemma addFunctionCall_liveFunctions name it x :
  x ∈ liveFunctions (TLiveTraverser.addFunctionCall intermediate name it) ↔
  x = name ∨ x ∈ liveFunctions it.
Proof.
  unfold TLiveTraverser.addFunctionCall, TLiveTraverser.pushFunction.
  case_decide; [set_solver |]. destruct (List.find _ _); simpl; set_solver.
Qed.

Lemma addFunctionCall_functions name it function :
  function ∈ functions (TLiveTraverser.addFunctionCall intermediate name it) ↔
  function ∈ functions it ∨
  ((name ∉ liveFunctions it) ∧ findFunction intermediate name = Some function).
Proof.
  unfold TLiveTraverser.addFunctionCall, TLiveTraverser.pushFunction, findFunction.
  case_decide; [tauto |]. destruct (List.find _ _) as [c|]; simpl.
  - rewrite elem_of_cons. split; [intros [-> | ?]; tauto | intros [? | [_ [= ->]]]; tauto].
  - split; [tauto | intros [? | [_ ?]]; done].
Qed.

Lemma seeCalls_liveFunctions names : ∀ it x,
  x ∈ liveFunctions (seeCalls intermediate names it) ↔ x ∈ names ∨ x ∈ liveFunctions it.
Proof.
  unfold seeCalls. induction names as [|name names IH]; intros it x.
  - set_solver.
  - simpl. rewrite IH, addFunctionCall_liveFunctions. set_solver.
Qed.

Lemma seeCalls_functions names : ∀ it function,
  function ∈ functions (seeCalls intermediate names it) ↔
  function ∈ functions it ∨
  ∃ name, name ∈ names ∧ (name ∉ liveFunctions it) ∧
          findFunction intermediate name = Some function.
Proof.
  unfold seeCalls. induction names as [|name names IH]; intros it function.
  - simpl. split; [tauto | intros [? | (? & Hin & _)]; [done | by inv Hin]].
  - simpl. rewrite IH, addFunctionCall_functions. split.
    + intros [[Hin | [Hnew Hfind]] | (name' & Hin & Hnew & Hfind)].
      * by left.
      * right. exists name. split; [left | done].
      * right. exists name'. split; [by right |]. split; [| done].
        intros Hold. apply Hnew, addFunctionCall_liveFunctions. by right.
    + intros [Hin | (name' & Hin & Hnew & Hfind)]; [by left; left |].
      destruct (decide (name' = name)) as [-> | Hne]; [by left; right |].
      apply elem_of_cons in Hin as [? | Hin]; [done |].
      right. exists name'. split; [done |]. split; [| done].
      rewrite addFunctionCall_liveFunctions. tauto.
Qed.

(** *** What visiting symbols does to the marks *)

Lemma upsert_marked_new ent v : live ent = true → marked (upsert ent v) (id ent).
Proof.
  intros Hlive. induction v as [|e rest IH].
  - exists ent. split; [left | done].
  - rewrite upsert_cons. repeat case_bool_decide.
    + destruct IH as (e' & Hin & Hid & Hl). exists e'. split; [by right | done].
    + exists (setLive (live ent) e). split; [left | done].
    + exists ent. split; [left | done].
Qed.

Lemma upsert_marked_mono ent v x :
  live ent = true → marked v x → marked (upsert ent v) x.
Proof.
  intros Hlive. induction v as [|e rest IH]; intros (e' & Hin & Hid & Hl).
  - by inv Hin.
  - rewrite upsert_cons. apply elem_of_cons in Hin as [-> | Hin].
    + repeat case_bool_decide.
      * exists e. split; [left | done].
      * exists (setLive (live ent) e). split; [left | done].
      * exists e. split; [right; left | done].
    + repeat case_bool_decide.
      * destruct IH as (e'' & Hin' & Hid' & Hl'); [by exists e' |].
        exists e''. split; [by right | done].
      * exists e'. split; [by right | done].
      * exists e'. split; [by right; right | done].
Qed.

Lemma upsert_marked_inv ent v x :
  marked (upsert ent v) x → marked v x ∨ (x = id ent ∧ live ent = true).
Proof.
  induction v as [|e rest IH]; intros (e' & Hin & Hid & Hl).
  - apply list_elem_of_singleton in Hin as ->. by right.
  - rewrite upsert_cons in Hin. repeat case_bool_decide.
    + apply elem_of_cons in Hin as [-> | Hin].
      * left. exists e. split; [left | done].
      * destruct IH as [(e'' & ? & ? & ?) | ?]; [by exists e' | | by right].
        left. exists e''. split; [by right | done].
    + apply elem_of_cons in Hin as [-> | Hin].
      * right. simpl in *. split; [congruence | done].
      * left. exists e'. split; [by right | done].
    + apply elem_of_cons in Hin as [-> | Hin]; [by right |].
      left. by exists e'.
Qed.

Lemma fold_marked_mono bases : ∀ v x,
  marked v x → marked (fold_left (gatherStep false intermediate) bases v) x.
Proof.
  induction bases as [|b bases IH]; intros v x Hm; [done |].
  simpl. apply IH. unfold gatherStep. destruct (isUniform intermediate b); [| done].
  by apply upsert_marked_mono.
Qed.

Lemma fold_marked_new ta bases : ∀ v base,
  ta = false → base ∈ bases → isUniform intermediate base = true →
  marked (fold_left (gatherStep ta intermediate) bases v)
    (getId (symbols intermediate base)).
Proof.
  induction bases as [|b bases IH]; intros v base -> Hin Hu; [by inv Hin |].
  simpl. destruct (decide (base ∈ bases)) as [Hrest | Hnot]; [by apply IH |].
  apply elem_of_cons in Hin as [-> | ?]; [| done].
  apply fold_marked_mono. unfold gatherStep. rewrite Hu.
  by apply (upsert_marked_new (entryOf false intermediate b)).
Qed.

Lemma fold_marked_inv ta bases : ∀ v x,
  marked (fold_left (gatherStep ta intermediate) bases v) x →
  marked v x ∨
  (ta = false ∧ ∃ base, base ∈ bases ∧ isUniform intermediate base = true ∧
                        getId (symbols intermediate base) = x).
Proof.
  induction bases as [|b bases IH]; intros v x Hm; [by left |].
  simpl in Hm. apply IH in Hm as [Hm | (-> & base & Hin & Hu & Hid)].
  - unfold gatherStep in Hm. destruct (isUniform intermediate b) eqn:Hu; [| by left].
    apply upsert_marked_inv in Hm as [? | [-> Hl]]; [by left |].
    right. simpl in Hl. apply negb_true_iff in Hl as ->.
    split; [done |]. exists b. split; [left | done].
  - right. split; [done |]. exists base. split; [by right | done].
Qed.

(** *** The loop *)

Lemma LiveInvariant_step function rest liveFunctions0 v visited :
  LiveInvariant intermediate visited
    (mkLiveTraverser false (function :: rest) liveFunctions0, v) →
  LiveInvariant intermediate (function :: visited)
    (TVarGatherTraverser.traverse intermediate function
       (mkLiveTraverser false rest liveFunctions0, v)).
Proof.
  intros (_ & Hpushed & Hlive & Hcalls & Hmarks). simpl in *.
  rewrite traverse_live by done.
  set (it0 := mkLiveTraverser false rest liveFunctions0).
  unfold LiveInvariant. simpl.
  split; [by rewrite seeCalls_traverseAll |].
  split; [| split; [| split]].
  - intros name f Hname Hfind. rewrite seeCalls_functions.
    destruct (decide (name ∈ liveFunctions0 ∨
                       name = getEntryPointMangledName intermediate)) as [Hold | Hnew].
    + destruct (Hpushed name f Hold Hfind) as [Hin | Hin]; [| by right; right].
      apply elem_of_cons in Hin as [-> | Hin]; [right; left | by left; left].
    + left; right. exists name. destruct Hname as [Hname | ?]; [| tauto].
      apply seeCalls_liveFunctions in Hname as [? | ?]; [| simpl in *; tauto].
      split; [done |]. split; [simpl; tauto | done].
  - intros f [Hin | Hin].
    + apply seeCalls_functions in Hin as [Hin | (name & Hname & _ & Hfind)].
      * apply Hlive. left. by right.
      * apply (live_callee intermediate function name); [| done..].
        apply Hlive. left. left.
    + apply Hlive. apply elem_of_cons in Hin as [-> | Hin]; [left; left | by right].
  - intros f name Hin Hname. apply seeCalls_liveFunctions.
    apply elem_of_cons in Hin as [-> | Hin]; [by left | right].
    simpl. by apply (Hcalls f).
  - intros x. split.
    + intros Hm. apply fold_marked_inv in Hm as [Hm | (_ & base & Hin & Hu & Hid)].
      * apply Hmarks in Hm as (f & base & Hf & Hrest). exists f, base.
        split; [by right | done].
      * exists function, base. split; [left | done].
    + intros (f & base & Hf & Hin & Hu & <-).
      apply elem_of_cons in Hf as [-> | Hf].
      * by apply fold_marked_new.
      * apply fold_marked_mono, Hmarks. by exists f, base.
Qed.

Lemma liveLoop_invariant fuel :
  ∀ st st' visited,
    LiveInvariant intermediate visited st →
    TIoMapper.liveLoop fuel intermediate st = Some st' →
    ∃ visited', LiveInvariant intermediate visited' st' ∧ functions st'.1 = [].
Proof.
  induction fuel as [|fuel IH]; intros [it v] st' visited Hinv; [done |].
  simpl. destruct (functions it) as [|function rest] eqn:Hfun.
  - intros [= <-]. by exists visited.
  - destruct it as [ta W L]. simpl in Hfun. subst W.
    assert (ta = false) as -> by apply Hinv.
    intros Hloop. eapply IH; [| done]. by apply LiveInvariant_step.
Qed.

Lemma allCodePass_unmarked root x : ¬ marked (allCodePass intermediate root []) x.
Proof.
  rewrite allCodePass_fold. intros Hm.
  apply fold_marked_inv in Hm as [(e & Hin & _) | [? _]]; [by inv Hin | done].
Qed.

Lemma LiveInvariant_initial root :
  LiveInvariant intermediate []
    (TLiveTraverser.pushFunction intermediate (getEntryPointMangledName intermediate)
       (mkLiveTraverser false [] ∅),
     allCodePass intermediate root []).
Proof.
  unfold TLiveTraverser.pushFunction.
  split; [by destruct (List.find _ _) |].
  split; [| split; [| split]]; simpl.
  - intros name f [Hin | ->] Hfind.
    + destruct (List.find _ _); simpl in Hin; set_solver.
    + unfold findFunction in Hfind. rewrite Hfind. left. left.
  - intros f [Hin | Hin]; [| by inv Hin].
    apply live_entry. unfold findFunction.
    destruct (List.find _ _) as [c|]; simpl in Hin; [| by inv Hin].
    by apply list_elem_of_singleton in Hin as ->.
  - intros f name Hin. by inv Hin.
  - intros x. split.
    + intros Hm. by apply allCodePass_unmarked in Hm.
    + intros (f & _ & Hin & _). by inv Hin.
Qed.

(** After the two traversals in the order of [addStage], all code and then
    live code, an entry is marked live exactly when its variable has a
    uniform occurrence in a function reachable from the entry point. *)
Lemma collect_live root v e :
  TIoMapper.collect intermediate root = Some v → e ∈ v →
  live e = true ↔ usedInLiveCode intermediate (id e).
Proof.
  intros Hcollect He. pose proof (collect_sorted _ _ _ Hcollect) as Hsorted.
  unfold TIoMapper.collect in Hcollect.
  pose proof (LiveInvariant_initial root) as Hinit. unfold allCodePass in Hinit.
  destruct (TVarGatherTraverser.traverse _ _ _) as [it0 v0]. simpl in Hinit.
  apply fmap_Some in Hcollect as ([it' v'] & Hloop & ->). simpl in *.
  destruct (liveLoop_invariant _ _ _ _ Hinit Hloop)
    as (visited & (_ & Hpushed & Hlive & Hcalls & Hmarks) & Hempty).
  simpl in *. rewrite Hempty in *.
  assert (Hall : ∀ f, LiveFunction intermediate f → f ∈ visited).
  { induction 1 as [f Hfind | caller name f _ IHcaller Hname Hfind].
    - destruct (Hpushed _ f (or_intror eq_refl) Hfind) as [Hin | ?]; [by inv Hin | done].
    - destruct (Hpushed name f (or_introl (Hcalls _ _ IHcaller Hname)) Hfind)
        as [Hin | ?]; [by inv Hin | done]. }
  split.
  - intros Hl. destruct (proj1 (Hmarks (id e))) as (f & base & Hf & Hrest);
      [by exists e |].
    exists f, base. split; [apply Hlive; by right | done].
  - intros (f & base & Hf & Hrest).
    destruct (proj2 (Hmarks (id e))) as (e' & He' & Hid & Hl);
      [exists f, base; split; [by apply Hall | done] |].
    assert (e' = e) as <-; [| done].
    apply (ids_NoDup_inj v'); [by apply StronglySorted_lt_NoDup | done..].
Qed.

End Liveness.

(** * Further properties *)

(** ** One visit of the collector *)

Lemma ids_upsert_inv ent v x : x ∈ ids (upsert ent v) → x = id ent ∨ x ∈ ids v.
Proof.
  unfold ids. induction v as [|e rest IH]; intros Hin.
  - apply list_elem_of_singleton in Hin. by left.
  - rewrite upsert_cons in Hin. repeat case_bool_decide; csimpl in *; set_solver.
Qed.

Lemma length_upsert ent v :
  (length v ≤ length (upsert ent v) ≤ S (length v))%nat.
Proof.
  induction v as [|e rest IH]; [simpl; lia |].
  rewrite upsert_cons. repeat case_bool_decide; simpl; lia.
Qed.

(** X12: one [visitSymbol] of a collecting traverser, of either kind and
    from any list: the traverser itself is not changed; a list strictly
    increasing in id stays so; no id is lost; an occurrence that is not
    uniform leaves the list as it is; a uniform one has its id in the list
    afterwards; and the list grows by at most one entry. *)
Theorem visitSymbol_gather_step (intermediate : TIntermediate) (base : ptr)
    (it : TLiveTraverser) (v : TVarLiveMap) :
  let st' := TVarGatherTraverser.visitSymbol intermediate base (it, v) in
  st'.1 = it ∧
  (StronglySorted Z.lt (ids v) → StronglySorted Z.lt (ids st'.2)) ∧
  (∀ x, x ∈ ids v → x ∈ ids st'.2) ∧
  (isUniform intermediate base = false → st'.2 = v) ∧
  (isUniform intermediate base = true →
   getId (symbols intermediate base) ∈ ids st'.2) ∧
  (length v ≤ length st'.2 ≤ S (length v))%nat.
Proof.
  intros st'. subst st'. rewrite visitSymbol_gatherStep. cbn [fst snd].
  split; [done |]. split; [apply gatherStep_sorted |].
  split; [intros x; apply gatherStep_mono |].
  split; [by unfold gatherStep; intros -> |].
  split; [apply gatherStep_elem |].
  unfold gatherStep. destruct (isUniform _ _); [apply length_upsert | lia].
Qed.

(** X4: a visit by the live-code traverser marks the variable of a uniform
    occurrence live and leaves every variable that was marked live marked
    live, on any list. *)
Theorem visitSymbol_live_traverser_marks (intermediate : TIntermediate) (base : ptr)
    (functions0 : list TIntermNode) (liveFunctions0 : gset string) (v : TVarLiveMap) :
  let v' := (TVarGatherTraverser.visitSymbol intermediate base
               (mkLiveTraverser false functions0 liveFunctions0, v)).2 in
  (isUniform intermediate base = true →
   marked v' (getId (symbols intermediate base))) ∧
  (∀ x, marked v x → marked v' x).
Proof.
  intros v'. subst v'. rewrite visitSymbol_gatherStep. cbn [fst snd traverseAll].
  unfold gatherStep. split.
  - intros ->. by apply (upsert_marked_new (entryOf false intermediate base)).
  - intros x Hm. destruct (isUniform _ _); [| done]. by apply upsert_marked_mono.
Qed.

(** ** What the two traversals collect *)

Section Collected.
Variable intermediate : TIntermediate.

Lemma fold_gatherStep_ids ta bases : ∀ v x,
  x ∈ ids (fold_left (gatherStep ta intermediate) bases v) ↔
  x ∈ ids v ∨
  ∃ base, base ∈ bases ∧ isUniform intermediate base = true ∧
          getId (symbols intermediate base) = x.
Proof.
  induction bases as [|b bases IH]; intros v x.
  - simpl. split; [by left | intros [? | (? & Hin & _)]; [done | by inv Hin]].
  - simpl. rewrite IH. split.
    + intros [Hin | (base & Hin & Hu & Hid)].
      * unfold gatherStep in Hin. destruct (isUniform intermediate b) eqn:Hu; [| by left].
        apply ids_upsert_inv in Hin as [-> | ?]; [| by left].
        right. exists b. split; [left | done].
      * right. exists base. split; [by right | done].
    + intros [Hin | (base & Hin & Hu & Hid)].
      * left. by apply gatherStep_mono.
      * apply elem_of_cons in Hin as [-> | Hin].
        -- left. rewrite <- Hid. by apply gatherStep_elem.
        -- right. by exists base.
Qed.

Lemma upsert_core ent v :
  StronglySorted Z.lt (ids v) → id ent ∈ ids v →
  core <$> upsert ent v = core <$> v.
Proof.
  unfold ids. induction v as [|e rest IH]; intros Hs Hin.
  - by inv Hin.
  - rewrite upsert_cons. csimpl in *. apply StronglySorted_inv in Hs as [Hs Hall].
    repeat case_bool_decide; csimpl.
    + f_equal. apply IH; [done |]. set_solver by lia.
    + done.
    + exfalso. apply elem_of_cons in Hin as [?|Hin]; [lia |].
      rewrite Forall_forall in Hall. apply Hall in Hin. lia.
Qed.

Lemma fold_gatherStep_core ta bases : ∀ v,
  StronglySorted Z.lt (ids v) →
  (∀ base, base ∈ bases → isUniform intermediate base = true →
           getId (symbols intermediate base) ∈ ids v) →
  core <$> fold_left (gatherStep ta intermediate) bases v = core <$> v.
Proof.
  induction bases as [|b bases IH]; intros v Hs Hin; [done |].
  simpl. rewrite IH.
  - unfold gatherStep. destruct (isUniform intermediate b) eqn:Hu; [| done].
    apply upsert_core; [done |]. apply Hin; [left | done].
  - by apply gatherStep_sorted.
  - intros base Hb Hu. apply gatherStep_mono, Hin; [by right | done].
Qed.

Lemma findFunction_global name function :
  findFunction intermediate name = Some function →
  function ∈ TLiveTraverser.globals intermediate.
Proof. intros Hf. apply find_some in Hf as [Hin _]. by apply list_elem_of_In. Qed.

(** The live-code pass changes nothing but liveness once the all-code pass
    has put every uniform occurrence of every function in the list. *)
Lemma liveLoop_core fuel :
  ∀ st st',
    traverseAll st.1 = false →
    (∀ function, function ∈ functions st.1 →
                 function ∈ TLiveTraverser.globals intermediate) →
    StronglySorted Z.lt (ids st.2) →
    coversFunctions intermediate st.2 →
    TIoMapper.liveLoop fuel intermediate st = Some st' →
    core <$> st'.2 = core <$> st.2.
Proof.
  induction fuel as [|fuel IH]; intros [it v] st' Hlive Hglob Hs Hcover; [done |].
  simpl. destruct it as [ta W L]. simpl in *. subst ta.
  destruct W as [|function rest]; [by intros [= <-] |].
  intros Hloop.
  assert (Hf : function ∈ TLiveTraverser.globals intermediate) by (apply Hglob; left).
  assert (Hhere : ∀ base, base ∈ symbolsOf function →
            isUniform intermediate base = true →
            getId (symbols intermediate base) ∈ ids v)
    by (intros base; by apply Hcover).
  rewrite traverse_live in Hloop by done.
  pose proof (fold_gatherStep_present false intermediate _ v Hs Hhere) as Hids.
  apply IH in Hloop.
  - rewrite Hloop. simpl. by apply fold_gatherStep_core.
  - simpl. by rewrite seeCalls_traverseAll.
  - simpl. intros f Hin. apply seeCalls_functions in Hin as [Hin | (name & _ & _ & Hfind)].
    + apply Hglob. by right.
    + by apply findFunction_global with name.
  - simpl. by rewrite Hids.
  - unfold coversFunctions in *. simpl. rewrite Hids. apply Hcover.
Qed.

Lemma symbolsOf_global root function base :
  getTreeRoot intermediate = Some root →
  function ∈ TLiveTraverser.globals intermediate →
  base ∈ symbolsOf function → base ∈ symbolsOf root.
Proof.
  unfold TLiveTraverser.globals. intros -> Hf Hb.
  destruct root as [|op name sequence]; [by inv Hf |].
  simpl in *. apply list_elem_of_In, in_flat_map.
  exists function. split; by apply list_elem_of_In.
Qed.

Lemma collect_core root v :
  getTreeRoot intermediate = Some root →
  TIoMapper.collect intermediate root = Some v →
  core <$> v = core <$> allCodePass intermediate root [].
Proof.
  intros Hroot Hcollect. unfold TIoMapper.collect in Hcollect.
  unfold allCodePass.
  pose proof (allCodePass_fold intermediate root []) as Hfold. unfold allCodePass in Hfold.
  destruct (TVarGatherTraverser.traverse _ _ _) as [it0 v0]. simpl in *. subst v0.
  apply fmap_Some in Hcollect as (st' & Hloop & ->).
  apply liveLoop_core in Hloop; [done | ..]; simpl.
  - unfold TLiveTraverser.pushFunction. by destruct (List.find _ _).
  - unfold TLiveTraverser.pushFunction. intros f Hin.
    destruct (List.find _ _) as [c|] eqn:Hfind; simpl in Hin; [| by inv Hin].
    apply list_elem_of_singleton in Hin as ->. by apply findFunction_global in Hfind.
  - apply fold_gatherStep_sorted. constructor.
  - intros f base Hf Hb Hu. apply fold_gatherStep_elem; [| done].
    by apply symbolsOf_global with f.
Qed.

Lemma core_ids (v v' : TVarLiveMap) : core <$> v = core <$> v' → ids v = ids v'.
Proof.
  intros Hc. unfold ids.
  assert (Hid : ∀ l : TVarLiveMap, id <$> l = (λ c, c.1.1.1) <$> (core <$> l))
    by (intros l; rewrite <- list_fmap_compose; by apply list_fmap_ext).
  by rewrite !Hid, Hc.
Qed.

(** X2: the list the two traversals leave is strictly increasing in id and
    holds exactly the ids of the uniform occurrences in the tree; an id
    that only occurrences of another storage class carry has no entry. *)
Theorem collect_ids (root : TIntermNode) (v : TVarLiveMap) :
  getTreeRoot intermediate = Some root →
  TIoMapper.collect intermediate root = Some v →
  StronglySorted Z.lt (ids v) ∧
  ∀ x, x ∈ ids v ↔
       ∃ base, base ∈ symbolsOf root ∧ isUniform intermediate base = true ∧
               getId (symbols intermediate base) = x.
Proof.
  intros Hroot Hcollect. split; [by apply collect_sorted with intermediate root |].
  intros x. rewrite (core_ids _ _ (collect_core root v Hroot Hcollect)).
  rewrite allCodePass_fold, fold_gatherStep_ids. split; [| by right].
  intros [Hin | ?]; [by inv Hin | done].
Qed.

Lemma upsert_elem_cases ent v e :
  StronglySorted Z.lt (ids v) → e ∈ upsert ent v →
  (e = ent ∧ id ent ∉ ids v) ∨
  (∃ e0, e0 ∈ v ∧ id e0 = id ent ∧ e = setLive (live ent) e0) ∨
  (e ∈ v ∧ id e ≠ id ent).
Proof.
  unfold ids. induction v as [|e0 rest IH]; intros Hs Hin.
  - apply list_elem_of_singleton in Hin as ->. left. split; [done | by inv 1].
  - rewrite upsert_cons in Hin. csimpl in Hs.
    apply StronglySorted_inv in Hs as [Hs Hall]. rewrite Forall_forall in Hall.
    assert (Hlater : ∀ e', e' ∈ rest → id e0 < id e')
      by (intros e' He'; by apply Hall, list_elem_of_fmap_2).
    repeat case_bool_decide.
    + apply elem_of_cons in Hin as [-> | Hin].
      * right; right. split; [left | lia].
      * destruct (IH Hs Hin) as [[-> Hnew] | [(e1 & He1 & Hid & ->) | [He Hne]]].
        -- left. split; [done |]. csimpl. rewrite not_elem_of_cons. split; [lia | done].
        -- right; left. exists e1. split; [by right | done].
        -- right; right. split; [by right | done].
    + apply elem_of_cons in Hin as [-> | Hin].
      * right; left. exists e0. split; [left | done].
      * right; right. split; [by right |]. apply Hlater in Hin. lia.
    + apply elem_of_cons in Hin as [-> | Hin].
      * left. split; [done |]. csimpl. rewrite not_elem_of_cons. split; [lia |].
        intros Hin. apply Hall in Hin. lia.
      * right; right. split; [done |].
        apply elem_of_cons in Hin as [-> | Hin]; [lia |]. apply Hlater in Hin. lia.
Qed.

Lemma firstUniformOccurrence_snoc bases b x base :
  firstUniformOccurrence intermediate bases x base →
  firstUniformOccurrence intermediate (bases ++ [b]) x base.
Proof.
  intros (before & after & -> & Hrest). exists before, (after ++ [b]).
  split; [by rewrite <- app_assoc | done].
Qed.

Lemma fold_first_occurrence bases : ∀ seen v,
  StronglySorted Z.lt (ids v) →
  (∀ e, e ∈ v → firstUniformOccurrence intermediate seen (id e) (symbol e)) →
  (∀ b, b ∈ seen → isUniform intermediate b = true →
        getId (symbols intermediate b) ∈ ids v) →
  ∀ e, e ∈ fold_left (gatherStep true intermediate) bases v →
       firstUniformOccurrence intermediate (seen ++ bases) (id e) (symbol e).
Proof.
  induction bases as [|b bases IH]; intros seen v Hs Hfirst Hseen e He.
  - rewrite app_nil_r. by apply Hfirst.
  - simpl in He. rewrite (cons_middle b), app_assoc.
    revert e He. apply IH.
    + by apply gatherStep_sorted.
    + intros e He. unfold gatherStep in He.
      destruct (isUniform intermediate b) eqn:Hu;
        [| by apply firstUniformOccurrence_snoc, Hfirst].
      apply upsert_elem_cases in He; [| done].
      destruct He as [[-> Hnew] | [(e0 & He0 & Hid & ->) | [He _]]].
      * exists seen, []. simpl. split; [done |]. split; [done |]. split; [done |].
        intros b' Hb' Hu' Heq. apply Hnew. simpl. rewrite <- Heq. by apply Hseen.
      * simpl. by apply firstUniformOccurrence_snoc, (Hfirst e0).
      * by apply firstUniformOccurrence_snoc, Hfirst.
    + intros b' Hb' Hu'. apply elem_of_app in Hb' as [Hb' | Hb'].
      * by apply gatherStep_mono, Hseen.
      * apply list_elem_of_singleton in Hb' as ->. by apply gatherStep_elem.
Qed.

(** X3: the occurrence an entry points to, whose name and type the
    resolver is given, is the first uniform occurrence of the entry's
    variable in the order the all-code traversal walks the tree; a later
    occurrence never replaces it. *)
Theorem collect_symbol_is_first_occurrence (root : TIntermNode) (v : TVarLiveMap)
    (e : TVarEntryInfo) :
  getTreeRoot intermediate = Some root →
  TIoMapper.collect intermediate root = Some v →
  e ∈ v →
  firstUniformOccurrence intermediate (symbolsOf root) (id e) (symbol e).
Proof.
  intros Hroot Hcollect He.
  assert (Hc : core e ∈ core <$> allCodePass intermediate root []).
  { rewrite <- (collect_core root v Hroot Hcollect). by apply list_elem_of_fmap_2. }
  apply list_elem_of_fmap in Hc as (e0 & Hcore & He0).
  injection Hcore as -> -> _ _.
  rewrite allCodePass_fold in He0.
  apply (fold_first_occurrence (symbolsOf root) [] []); [constructor | | | done].
  - intros ? Hin. by inv Hin.
  - intros ? Hin. by inv Hin.
Qed.

End Collected.

(** ** What the adaptor leaves alone *)

Section AdaptorFrame.
Context {R : Type} `{TIoMapResolver R} (mem : ptr → TIntermSymbol).

Lemma call_frame (f : TResolverAdaptor) (ent : TVarEntryInfo) (r : R)
    (infoSink : TInfoSink) :
  let '(f', ent', r', infoSink') := TResolverAdaptor.call mem f ent r infoSink in
  id ent' = id ent ∧ symbol ent' = symbol ent ∧ live ent' = live ent ∧
  stage f' = stage f ∧ (error f = true → error f' = true) ∧
  ∃ msgs, info infoSink' = info infoSink ++ msgs.
Proof.
  unfold TResolverAdaptor.call.
  destruct (validateBinding _ _ _ _ r) as [[|] r1].
  - destruct (resolveBinding _ _ _ _ r1) as [b r2].
    destruct (resolveSet _ _ _ _ r2) as [s r3].
    repeat split; try done. exists []. by rewrite app_nil_r.
  - repeat split; try done. by eexists.
Qed.

(** X5: whatever the resolver does, the adaptor run over a list keeps the
    number and order of the entries and the id, symbol pointer and liveness
    of each; it keeps its stage, never clears its error flag, and only
    appends to the sink. *)
Theorem std_for_each_frame (v : TVarLiveMap) (f : TResolverAdaptor) (r : R)
    (infoSink : TInfoSink) :
  let '(f', v', r', infoSink') :=
    TResolverAdaptor.std_for_each mem v f r infoSink in
  length v' = length v ∧
  id <$> v' = id <$> v ∧ symbol <$> v' = symbol <$> v ∧ live <$> v' = live <$> v ∧
  stage f' = stage f ∧ (error f = true → error f' = true) ∧
  ∃ msgs, info infoSink' = info infoSink ++ msgs.
Proof.
  revert f r infoSink. induction v as [|ent rest IH]; intros f r infoSink.
  - simpl. repeat split; try done. exists []. by rewrite app_nil_r.
  - simpl. pose proof (call_frame f ent r infoSink) as Hcall.
    destruct (TResolverAdaptor.call mem f ent r infoSink) as [[[f1 ent1] r1] sink1].
    destruct Hcall as (Hid & Hsym & Hlive & Hstage & Herr & msgs1 & Hinfo).
    specialize (IH f1 r1 sink1).
    destruct (TResolverAdaptor.std_for_each mem rest f1 r1 sink1)
      as [[[f2 v2] r2] sink2].
    destruct IH as (Hlen & Hids & Hsyms & Hlives & Hstage2 & Herr2 & msgs2 & Hinfo2).
    csimpl. rewrite Hlen, Hid, Hsym, Hlive, Hids, Hsyms, Hlives, Hstage2, Hstage.
    repeat split; try done; [tauto |].
    exists (msgs1 ++ msgs2). by rewrite Hinfo2, Hinfo, app_assoc.
Qed.

(** The log of a run: one [validateBinding] per entry with the entry's
    arguments, and one message per refusal. *)
Lemma std_for_each_log (v : TVarLiveMap) :
  ∀ (f : TResolverAdaptor) (r : Recording R) (infoSink : TInfoSink),
    let '(f', v', r', infoSink') :=
      TResolverAdaptor.std_for_each mem v f r infoSink in
    ∃ cs, calls r' = calls r ++ cs ∧
          validateArgs cs = argsOf mem <$> v ∧
          info infoSink' = info infoSink ++ (invalidBindingMessage <$> rejectedNames cs).
Proof.
  induction v as [|ent rest IH]; intros f r infoSink.
  - exists []. simpl. by rewrite !app_nil_r.
  - simpl.
    destruct (call_recording mem f ent r infoSink) as [(r3 & b & s & ->) | (r1 & ->)].
    + match goal with
      | |- context [TResolverAdaptor.std_for_each mem rest f ?r' infoSink] =>
          specialize (IH f r' infoSink);
          destruct (TResolverAdaptor.std_for_each mem rest f r' infoSink)
            as [[[f' v'] r'0] sink']
      end.
      destruct IH as (cs & Hcalls & Hargs & Hinfo). simpl in Hcalls.
      eexists (_ :: _ :: _ :: cs). rewrite Hcalls, <- !app_assoc. simpl.
      split; [done |]. unfold validateArgs in *. csimpl.
      by rewrite Hargs.
    + match goal with
      | |- context [TResolverAdaptor.std_for_each mem rest ?f1 ?r' ?s1] =>
          specialize (IH f1 r' s1);
          destruct (TResolverAdaptor.std_for_each mem rest f1 r' s1)
            as [[[f' v'] r'0] sink']
      end.
      destruct IH as (cs & Hcalls & Hargs & Hinfo). simpl in Hcalls, Hinfo.
      eexists (_ :: cs). rewrite Hcalls, Hinfo, <- !app_assoc. simpl.
      split; [done |]. unfold validateArgs in *. csimpl.
      by rewrite Hargs.
Qed.

End AdaptorFrame.

(** ** The stage seen from the resolver and the sink *)

Section StageObserved.
Context `{TQualifierPredicates} {R : Type} `{TIoMapResolver R}.

(** The path of a call with a logging resolver on a well-formed program,
    with the log it leaves. *)
Lemma addStage_log (S : StdSort) stage intermediate infoSink (res : R) root v0 out :
  ¬ malformed intermediate →
  getTreeRoot intermediate = Some root →
  TIoMapper.collect intermediate root = Some v0 →
  TIoMapper.addStage stage intermediate infoSink (Some (mkRecording res [])) = Some out →
  ∃ log,
    calls <$> resolverAfter out = Some log ∧
    validateArgs log =
      argsOf (symbols intermediate)
        <$> std_sort (TOrderByPriority (symbols intermediate)) v0 ∧
    info (sink out) = info infoSink ++ (invalidBindingMessage <$> rejectedNames log).
Proof.
  intros Hwf Hroot Hcollect.
  rewrite (addStage_well_formed S _ _ _ _ root v0 Hwf Hroot Hcollect). simpl.
  pose proof (std_for_each_log (symbols intermediate)
    (std_sort (TOrderByPriority (symbols intermediate)) v0)
    (mkAdaptor stage false) (mkRecording res []) infoSink) as Hlog.
  destruct (TResolverAdaptor.std_for_each _ _ _ _ _) as [[[f' v2] r'] sink'].
  destruct Hlog as (cs & Hcalls & Hargs & Hinfo). simpl in Hcalls.
  intros [= <-]. simpl. exists cs. by rewrite Hcalls.
Qed.

Lemma sorted_by_classes mem (v : TVarLiveMap) :
  sorted_by (TOrderByPriority mem) v →
  StronglySorted le (classOf mem <$> v).
Proof.
  unfold sorted_by. induction 1 as [|a l _ IH Hall]; csimpl; constructor; [done |].
  apply Forall_fmap. apply (Forall_impl _ _ _ Hall). intros b Hba. simpl.
  apply TOrderByPriority_lex_false in Hba. lia.
Qed.

(** X6: the resolver is asked in priority order: along the
    [validateBinding] calls of a stage the class of the variable (binding
    and set given, only a binding, only a set, neither) never goes back
    to an earlier one. *)
Theorem addStage_validates_in_priority_order (S : StdSort) stage intermediate
    infoSink (res : R) out log :
  SortContract S →
  TIoMapper.addStage stage intermediate infoSink (Some (mkRecording res [])) = Some out →
  calls <$> resolverAfter out = Some log →
  StronglySorted le (validateClasses log).
Proof.
  intros Hsort Hadd Hlog.
  destruct (decide (malformed intermediate)) as [Hbad | Hwf].
  { rewrite (early_exit_outcome _ _ _ _ Hbad) in Hadd. injection Hadd as <-.
    simpl in Hlog. injection Hlog as <-. constructor. }
  destruct (getTreeRoot intermediate) as [root|] eqn:Hroot;
    [| exfalso; apply Hwf; by right; right].
  destruct (collect_terminates intermediate root) as [v0 Hcollect].
  destruct (addStage_log S _ _ _ _ root v0 out Hwf Hroot Hcollect Hadd)
    as (log' & Hlog' & Hargs & _).
  rewrite Hlog in Hlog'. injection Hlog' as <-.
  unfold validateClasses. rewrite Hargs, <- list_fmap_compose.
  destruct (Hsort (TOrderByPriority (symbols intermediate)) v0
              (TOrderByPriority_strict _)) as [_ Hsorted].
  by apply sorted_by_classes in Hsorted.
Qed.

(** X7: a stage validates every collected variable once, however often the
    variable occurs: the arguments of its [validateBinding] calls are, up
    to order, the name and type of each entry's symbol with the entry's
    liveness, one triple per entry, and the entries have distinct ids. *)
Theorem addStage_validates_each_entry_once (S : StdSort) stage intermediate
    infoSink (res : R) root out log :
  SortContract S →
  ¬ malformed intermediate →
  getTreeRoot intermediate = Some root →
  TIoMapper.addStage stage intermediate infoSink (Some (mkRecording res [])) = Some out →
  calls <$> resolverAfter out = Some log →
  ∃ v0, TIoMapper.collect intermediate root = Some v0 ∧
        NoDup (ids v0) ∧
        validateArgs log ≡ₚ argsOf (symbols intermediate) <$> v0 ∧
        length (validateArgs log) = length v0.
Proof.
  intros Hsort Hwf Hroot Hadd Hlog.
  destruct (collect_terminates intermediate root) as [v0 Hcollect].
  destruct (addStage_log S _ _ _ _ root v0 out Hwf Hroot Hcollect Hadd)
    as (log' & Hlog' & Hargs & _).
  rewrite Hlog in Hlog'. injection Hlog' as <-.
  destruct (Hsort (TOrderByPriority (symbols intermediate)) v0
              (TOrderByPriority_strict _)) as [Hperm _].
  exists v0. split; [done |].
  split; [by apply StronglySorted_lt_NoDup, collect_sorted with intermediate root |].
  rewrite Hargs, Hperm. split; [done |]. by rewrite length_fmap.
Qed.

(** X8: a stage only appends to the sink, and what it appends is one
    internal-error message ["Invalid binding: " + name] for each
    [validateBinding] call that returned [false], in the order of the
    calls; without such a call the sink is as before. *)
Theorem addStage_messages (S : StdSort) stage intermediate infoSink (res : R) out :
  TIoMapper.addStage stage intermediate infoSink (Some (mkRecording res [])) = Some out →
  ∃ log, calls <$> resolverAfter out = Some log ∧
         info (sink out) =
           info infoSink ++ (invalidBindingMessage <$> rejectedNames log).
Proof.
  intros Hadd.
  destruct (decide (malformed intermediate)) as [Hbad | Hwf].
  { rewrite (early_exit_outcome _ _ _ _ Hbad) in Hadd. injection Hadd as <-.
    exists []. simpl. by rewrite app_nil_r. }
  destruct (getTreeRoot intermediate) as [root|] eqn:Hroot;
    [| exfalso; apply Hwf; by right; right].
  destruct (collect_terminates intermediate root) as [v0 Hcollect].
  destruct (addStage_log S _ _ _ _ root v0 out Hwf Hroot Hcollect Hadd)
    as (log & Hlog & _ & Hinfo).
  by exists log.
Qed.

End StageObserved.

(** ** Liveness, the write-back and the end of the call *)

(** X1: in the order [addStage] runs them, all code and then the work list
    from the entry point, the traversals leave an entry marked live exactly
    when its variable has a uniform occurrence in a function that can be
    reached from the entry point along calls. *)
Theorem collect_liveness_is_reachability (intermediate : TIntermediate)
    (root : TIntermNode) (v : TVarLiveMap) (e : TVarEntryInfo) :
  TIoMapper.collect intermediate root = Some v →
  e ∈ v →
  live e = true ↔ usedInLiveCode intermediate (id e).
Proof. apply collect_live. Qed.

Lemma rewritten_frame v s :
  getId (rewritten v s) = getId s ∧ getName (rewritten v s) = getName s ∧
  basicType (getType (rewritten v s)) = basicType (getType s) ∧
  storage (getQualifier (rewritten v s)) = storage (getQualifier s).
Proof.
  unfold rewritten. destruct (List.find _ _) as [e|]; [| done].
  by repeat case_decide.
Qed.

Section StageFrame.
Context `{TQualifierPredicates} {R : Type} `{TIoMapResolver R}.

(** X9: whatever the resolver and the sort do, a call changes nothing of
    the program but bindings and sets: every symbol node keeps its id, its
    name, the rest of its type and its storage class, and the entry points,
    the recursion flag, the tree and the entry-point name are as before. *)
Theorem addStage_frame (S : StdSort) stage intermediate infoSink
    (resolver : option R) out :
  TIoMapper.addStage stage intermediate infoSink resolver = Some out →
  (∀ base,
     getId (symbols (program out) base) = getId (symbols intermediate base) ∧
     getName (symbols (program out) base) = getName (symbols intermediate base) ∧
     basicType (getType (symbols (program out) base)) =
       basicType (getType (symbols intermediate base)) ∧
     storage (getQualifier (symbols (program out) base)) =
       storage (getQualifier (symbols intermediate base))) ∧
  getNumEntryPoints (program out) = getNumEntryPoints intermediate ∧
  isRecursive (program out) = isRecursive intermediate ∧
  getTreeRoot (program out) = getTreeRoot intermediate ∧
  getEntryPointMangledName (program out) = getEntryPointMangledName intermediate.
Proof.
  intros Hadd. destruct resolver as [res|]; [| by injection Hadd as <-].
  destruct (decide (malformed intermediate)) as [Hbad | Hwf].
  { rewrite (early_exit_outcome _ _ _ _ Hbad) in Hadd. by injection Hadd as <-. }
  destruct (getTreeRoot intermediate) as [root|] eqn:Hroot;
    [| exfalso; apply Hwf; by right; right].
  destruct (collect_terminates intermediate root) as [v0 Hcollect].
  rewrite (addStage_well_formed S _ _ _ _ root v0 Hwf Hroot Hcollect) in Hadd.
  simpl in Hadd.
  destruct (TResolverAdaptor.std_for_each _ _ _ _ _) as [[[f' v2] r'] sink'].
  injection Hadd as <-. simpl. split; [| done].
  intros base. rewrite set_traverse_fold, fold_visitSymbol_rewritten.
  case_decide; [apply rewritten_frame | done].
Qed.

Lemma sorted_by_operator_lt (v : TVarLiveMap) :
  sorted_by operator_lt v → NoDup (ids v) → StronglySorted Z.lt (ids v).
Proof.
  unfold sorted_by, ids. induction 1 as [|a l _ IH Hall]; intros Hnd; csimpl.
  - constructor.
  - csimpl in Hnd. apply NoDup_cons in Hnd as [Hnotin Hnd].
    constructor; [by apply IH |].
    apply Forall_fmap, Forall_forall. intros b Hb. simpl.
    rewrite Forall_forall in Hall. specialize (Hall b Hb).
    apply bool_decide_eq_false in Hall.
    assert (id b ≠ id a) by (intros Heq; apply Hnotin; rewrite <- Heq;
                             by apply list_elem_of_fmap_2).
    lia.
Qed.

(** X13: when a call returns, its entry list is back in strictly
    increasing order of id, as the lookups of the write-back expect, and on
    the path through the write-back it holds the ids that were collected. *)
Theorem addStage_list_sorted_by_id (S : StdSort) stage intermediate infoSink
    (resolver : option R) out :
  SortContract S →
  TIoMapper.addStage stage intermediate infoSink resolver = Some out →
  StronglySorted Z.lt (ids (varMap out)) ∧
  (∀ root v0, ¬ malformed intermediate → is_Some resolver →
              getTreeRoot intermediate = Some root →
              TIoMapper.collect intermediate root = Some v0 →
              ids (varMap out) = ids v0).
Proof.
  intros Hsort Hadd. destruct resolver as [res|].
  2: { injection Hadd as <-. split; [constructor |]. by intros ?? _ [? ?]. }
  destruct (decide (malformed intermediate)) as [Hbad | Hwf].
  { rewrite (early_exit_outcome _ _ _ _ Hbad) in Hadd. injection Hadd as <-.
    split; [constructor | done]. }
  destruct (getTreeRoot intermediate) as [root|] eqn:Hroot;
    [| exfalso; apply Hwf; by right; right].
  destruct (collect_terminates intermediate root) as [v0 Hcollect].
  rewrite (addStage_well_formed S _ _ _ _ root v0 Hwf Hroot Hcollect) in Hadd.
  simpl in Hadd.
  pose proof (std_for_each_ids (symbols intermediate)
    (std_sort (TOrderByPriority (symbols intermediate)) v0)
    (mkAdaptor stage false) res infoSink) as Hids.
  destruct (TResolverAdaptor.std_for_each _ _ _ _ _) as [[[f' v2] r'] sink'].
  simpl in Hids. injection Hadd as <-. simpl.
  destruct (Hsort (TOrderByPriority (symbols intermediate)) v0
              (TOrderByPriority_strict _)) as [Hp1 _].
  destruct (Hsort operator_lt v2 operator_lt_strict) as [Hp3 Hs3].
  pose proof (collect_sorted _ _ _ Hcollect) as Hs0.
  assert (Hperm : ids (std_sort operator_lt v2) ≡ₚ ids v0)
    by (unfold ids in *; by rewrite Hp3, Hids, Hp1).
  assert (Hsorted : StronglySorted Z.lt (ids (std_sort operator_lt v2))).
  { apply sorted_by_operator_lt; [done |]. rewrite Hperm.
    by apply StronglySorted_lt_NoDup. }
  split; [done |].
  intros root' v0' _ _ [= <-] Hcollect'. rewrite Hcollect in Hcollect'.
  injection Hcollect' as <-.
  apply (StronglySorted_unique_strong Z.lt); [intros; lia | done..].
Qed.

End StageFrame.

(** X10: the write-back is idempotent: a second pass over the tree with the
    same entry list changes no symbol node, for any list and any store. *)
Theorem write_back_idempotent (v : TVarLiveMap) (root : TIntermNode)
    (mem : ptr → TIntermSymbol) (base : ptr) :
  TVarSetTraverser.traverse v root (TVarSetTraverser.traverse v root mem) base =
  TVarSetTraverser.traverse v root mem base.
Proof.
  rewrite !set_traverse_fold, !fold_visitSymbol_rewritten.
  case_decide; [apply rewritten_idemp | done].
Qed.

(** X11: the call always comes back.  The work-list loop ends within the
    number of children of the root plus two tests of its condition,
    whatever the calls in the tree, calls in a cycle included, since a
    function is pushed only the first time a call to it is met; so the
    collection and [addStage] return for every program, resolver and sort. *)
Theorem addStage_terminates `{TQualifierPredicates} {R : Type} `{TIoMapResolver R}
    (S : StdSort) (stage : EShLanguage) (intermediate : TIntermediate)
    (infoSink : TInfoSink) (resolver : option R) (v : TVarLiveMap) :
  is_Some (TIoMapper.liveLoop
             (length (TLiveTraverser.globals intermediate) + 2) intermediate
             (TLiveTraverser.pushFunction intermediate
                (getEntryPointMangledName intermediate)
                (mkLiveTraverser false [] ∅), v)) ∧
  is_Some (TIoMapper.addStage stage intermediate infoSink resolver).
Proof.
  split; [apply liveLoop_terminates, pending_initial | apply addStage_returns].
Qed.

(** ** Witnesses for the further properties *)

(** X1, witness: on the example [A] is marked live and is used in [main]. *)
Lemma collect_liveness_is_reachability_witness :
  TIoMapper.collect exampleProgram exampleRoot = Some exampleEntries ∧
  mkEntry 1 0%nat true 0 0 ∈ exampleEntries ∧
  (live (mkEntry 1 0%nat true 0 0) = true ↔
   usedInLiveCode exampleProgram (id (mkEntry 1 0%nat true 0 0))).
Proof.
  split; [by vm_compute |]. split; [left |].
  apply (collect_liveness_is_reachability exampleProgram exampleRoot exampleEntries);
    [by vm_compute | left].
Defined.

(** X2, witness: the example. *)
Lemma collect_ids_witness :
  getTreeRoot exampleProgram = Some exampleRoot ∧
  TIoMapper.collect exampleProgram exampleRoot = Some exampleEntries ∧
  StronglySorted Z.lt (ids exampleEntries) ∧
  ∀ x, x ∈ ids exampleEntries ↔
       ∃ base, base ∈ symbolsOf exampleRoot ∧ isUniform exampleProgram base = true ∧
               getId (symbols exampleProgram base) = x.
Proof.
  split; [reflexivity |]. split; [by vm_compute |].
  apply (collect_ids exampleProgram exampleRoot exampleEntries);
    [reflexivity | by vm_compute].
Defined.

(** X3, witness: the entry of [A] points to address 0, the first of its two
    occurrences. *)
Lemma collect_symbol_is_first_occurrence_witness :
  getTreeRoot exampleProgram = Some exampleRoot ∧
  TIoMapper.collect exampleProgram exampleRoot = Some exampleEntries ∧
  mkEntry 1 0%nat true 0 0 ∈ exampleEntries ∧
  firstUniformOccurrence exampleProgram (symbolsOf exampleRoot) 1 0%nat.
Proof.
  split; [reflexivity |]. split; [by vm_compute |]. split; [left |].
  apply (collect_symbol_is_first_occurrence exampleProgram exampleRoot exampleEntries
           (mkEntry 1 0%nat true 0 0)); [reflexivity | by vm_compute | left].
Defined.

(** X6, witness: the example with the accepting resolver. *)
Lemma addStage_validates_in_priority_order_witness :
  ∃ out log,
    SortContract insertionSort ∧
    @TIoMapper.addStage markerPredicates insertionSort (Recording ())
      (@recording_resolver () acceptingResolver)
      EShLangFragment exampleProgram (mkInfoSink []) (Some (mkRecording () []))
      = Some out ∧
    calls <$> resolverAfter out = Some log ∧
    StronglySorted le (@validateClasses markerPredicates log).
Proof.
  eexists _, _. split; [exact insertionSort_contract |].
  split; [vm_compute; reflexivity |]. split; [vm_compute; reflexivity |].
  eapply (@addStage_validates_in_priority_order markerPredicates () acceptingResolver
            insertionSort EShLangFragment exampleProgram (mkInfoSink []) ());
    [exact insertionSort_contract | vm_compute; reflexivity | vm_compute; reflexivity].
Defined.

(** X7, witness: the example with the accepting resolver. *)
Lemma addStage_validates_each_entry_once_witness :
  ∃ out log,
    SortContract insertionSort ∧
    ¬ malformed exampleProgram ∧
    getTreeRoot exampleProgram = Some exampleRoot ∧
    @TIoMapper.addStage markerPredicates insertionSort (Recording ())
      (@recording_resolver () acceptingResolver)
      EShLangFragment exampleProgram (mkInfoSink []) (Some (mkRecording () []))
      = Some out ∧
    calls <$> resolverAfter out = Some log ∧
    ∃ v0, TIoMapper.collect exampleProgram exampleRoot = Some v0 ∧
          NoDup (ids v0) ∧
          validateArgs log ≡ₚ argsOf (symbols exampleProgram) <$> v0 ∧
          length (validateArgs log) = length v0.
Proof.
  assert (Hwf : ¬ malformed exampleProgram)
    by (intros [Hn | [Hr | Ht]]; [by apply Hn | discriminate Hr | discriminate Ht]).
  eexists _, _. split; [exact insertionSort_contract |]. split; [exact Hwf |].
  split; [reflexivity |].
  split; [vm_compute; reflexivity |]. split; [vm_compute; reflexivity |].
  eapply (@addStage_validates_each_entry_once markerPredicates () acceptingResolver
            insertionSort EShLangFragment exampleProgram (mkInfoSink []) ());
    [exact insertionSort_contract | exact Hwf | reflexivity
    | vm_compute; reflexivity | vm_compute; reflexivity].
Defined.

(** X8, witness: the example with the resolver that refuses [B]. *)
Lemma addStage_messages_witness :
  ∃ out,
    @TIoMapper.addStage markerPredicates insertionSort (Recording ())
      (@recording_resolver () liveOnlyResolver)
      EShLangFragment exampleProgram (mkInfoSink []) (Some (mkRecording () []))
      = Some out ∧
    ∃ log, calls <$> resolverAfter out = Some log ∧
           info (sink out) =
             info (mkInfoSink []) ++ (invalidBindingMessage <$> rejectedNames log).
Proof.
  eexists. split; [vm_compute; reflexivity |].
  eapply (@addStage_messages markerPredicates () liveOnlyResolver
            insertionSort EShLangFragment exampleProgram (mkInfoSink []) ()).
  vm_compute; reflexivity.
Defined.

(** X9, witness: the example with the accepting resolver. *)
Lemma addStage_frame_witness :
  ∃ out,
    @TIoMapper.addStage markerPredicates insertionSort () acceptingResolver
      EShLangFragment exampleProgram (mkInfoSink []) (Some ()) = Some out ∧
    (∀ base,
       getId (symbols (program out) base) = getId (symbols exampleProgram base) ∧
       getName (symbols (program out) base) = getName (symbols exampleProgram base) ∧
       basicType (getType (symbols (program out) base)) =
         basicType (getType (symbols exampleProgram base)) ∧
       storage (getQualifier (symbols (program out) base)) =
         storage (getQualifier (symbols exampleProgram base))) ∧
    getTreeRoot (program out) = getTreeRoot exampleProgram.
Proof.
  eexists. split; [vm_compute; reflexivity |].
  match goal with
  | |- (∀ base, _ (symbols (program ?o) base) = _ ∧ _) ∧ _ =>
      destruct (@addStage_frame markerPredicates () acceptingResolver
                  insertionSort EShLangFragment exampleProgram (mkInfoSink [])
                  (Some ()) o) as (Hnodes & _ & _ & Hroot & _);
        [vm_compute; reflexivity |]
  end.
  split; [exact Hnodes | exact Hroot].
Defined.

(** X13, witness: the example with the accepting resolver. *)
Lemma addStage_list_sorted_by_id_witness :
  ∃ out,
    SortContract insertionSort ∧
    @TIoMapper.addStage markerPredicates insertionSort () acceptingResolver
      EShLangFragment exampleProgram (mkInfoSink []) (Some ()) = Some out ∧
    StronglySorted Z.lt (ids (varMap out)).
Proof.
  eexists. split; [exact insertionSort_contract |].
  split; [vm_compute; reflexivity |].
  match goal with
  | |- StronglySorted Z.lt (ids (varMap ?o)) =>
      destruct (@addStage_list_sorted_by_id markerPredicates () acceptingResolver
                  insertionSort EShLangFragment exampleProgram (mkInfoSink [])
                  (Some ()) o insertionSort_contract) as [Hsorted _];
        [vm_compute; reflexivity | exact Hsorted]
  end.
Defined.

(** X14: the live-code traversal adds no entry, removes none and changes no
    id, symbol pointer, binding or set: but for liveness, the list after
    both traversals is the list the all-code traversal built. *)
Theorem live_pass_changes_only_liveness (intermediate : TIntermediate)
    (root : TIntermNode) (v : TVarLiveMap) :
  getTreeRoot intermediate = Some root →
  TIoMapper.collect intermediate root = Some v →
  core <$> v = core <$> allCodePass intermediate root [] ∧
  length v = length (allCodePass intermediate root []).
Proof.
  intros Hroot Hcollect.
  pose proof (collect_core intermediate root v Hroot Hcollect) as Hcore.
  split; [done |]. apply (f_equal length) in Hcore. by rewrite !length_fmap in Hcore.
Qed.

(** X14, witness: the example. *)
Lemma live_pass_changes_only_liveness_witness :
  getTreeRoot exampleProgram = Some exampleRoot ∧
  TIoMapper.collect exampleProgram exampleRoot = Some exampleEntries ∧
  core <$> exampleEntries = core <$> allCodePass exampleProgram exampleRoot [] ∧
  length exampleEntries = length (allCodePass exampleProgram exampleRoot []).
Proof.
  split; [reflexivity |]. split; [by vm_compute |].
  apply (live_pass_changes_only_liveness exampleProgram exampleRoot exampleEntries);
    [reflexivity | by vm_compute].
Defined.

(** * Liveness in stage order, the adaptor's flag and the field widths *)

(** ** C2: liveness in the order of the stage *)

Lemma example_A_used_in_live_code : usedInLiveCode exampleProgram 1.
Proof.
  exists exampleMain, 0%nat. split; [| split; [| split]].
  - apply live_entry. reflexivity.
  - simpl. left.
  - reflexivity.
  - reflexivity.
Qed.

Lemma fold_visitSymbol_gatherStep intermediate it bases : ∀ v,
  fold_left (λ v base, (TVarGatherTraverser.visitSymbol intermediate base (it, v)).2)
    bases v =
  fold_left (gatherStep (traverseAll it) intermediate) bases v.
Proof.
  induction bases as [|b bases IH]; intros v; [done |].
  cbn [fold_left]. rewrite visitSymbol_gatherStep. cbn [snd]. apply IH.
Qed.

(** C2, as the code has it: the collector assigns the flag of the visiting
    traverser, and the stage runs the all-code traversal first, on a fresh
    list.  In that order the collection returns with every variable that
    has a uniform occurrence in a function reachable from the entry point
    marked live; a visit by the live-code traverser marks its variable live
    and leaves every variable marked live marked live; and the all-code
    traverser, starting from the empty list, never has a live entry before
    it, so no visit of the run turns a true flag to false. *)
Theorem live_flags_in_stage_order (intermediate : TIntermediate) (root : TIntermNode) :
  is_Some (TIoMapper.collect intermediate root) ∧
  (∀ v e, TIoMapper.collect intermediate root = Some v → e ∈ v →
          usedInLiveCode intermediate (id e) → live e = true) ∧
  (∀ base functions0 liveFunctions0 v,
     let v' := (TVarGatherTraverser.visitSymbol intermediate base
                  (mkLiveTraverser false functions0 liveFunctions0, v)).2 in
     (isUniform intermediate base = true →
      marked v' (getId (symbols intermediate base))) ∧
     (∀ x, marked v x → marked v' x)) ∧
  (∀ bases x,
     ¬ marked (fold_left
                 (λ v base, (TVarGatherTraverser.visitSymbol intermediate base
                               (mkLiveTraverser true [] ∅, v)).2) bases []) x).
Proof.
  split; [| split; [| split]].
  - unfold TIoMapper.collect.
    destruct (TVarGatherTraverser.traverse _ _ _) as [it v].
    apply fmap_is_Some, liveLoop_terminates, pending_initial.
  - intros v e Hcollect He Hused. by apply (collect_live intermediate root v e).
  - intros base functions0 liveFunctions0 v v'. subst v'.
    rewrite visitSymbol_gatherStep. cbn [fst snd traverseAll]. unfold gatherStep. split.
    + intros ->. by apply (upsert_marked_new (entryOf false intermediate base)).
    + intros x Hm. destruct (isUniform _ _); [| done]. by apply upsert_marked_mono.
  - intros bases x Hm. rewrite fold_visitSymbol_gatherStep in Hm.
    apply fold_marked_inv in Hm as [(e & Hin & _) | [? _]]; [by inv Hin | done].
Qed.

(** C2, witness: on the example [A], used in [main], is marked live. *)
Lemma live_flags_in_stage_order_witness :
  TIoMapper.collect exampleProgram exampleRoot = Some exampleEntries ∧
  mkEntry 1 0%nat true 0 0 ∈ exampleEntries ∧
  usedInLiveCode exampleProgram (id (mkEntry 1 0%nat true 0 0)) ∧
  live (mkEntry 1 0%nat true 0 0) = true.
Proof.
  split; [by vm_compute |]. split; [left |].
  split; [exact example_A_used_in_live_code |].
  destruct (live_flags_in_stage_order exampleProgram exampleRoot)
    as (_ & Hlive & _).
  apply (Hlive exampleEntries);
    [by vm_compute | left | exact example_A_used_in_live_code].
Defined.

(** C2, as stated, fails: with the live-code traversal run before the
    all-code traversal, [A], which is used in [main], ends not live. *)
Lemma live_first_order_loses_liveness :
  ¬ (∀ v e, collectLiveFirst exampleProgram exampleRoot = Some v → e ∈ v →
            usedInLiveCode exampleProgram (id e) → live e = true).
Proof.
  intros Hclaim.
  specialize (Hclaim [mkEntry 1 0%nat false 0 0; mkEntry 2 1%nat false 0 0]
                (mkEntry 1 0%nat false 0 0)).
  discriminate Hclaim;
    [by vm_compute | left | exact example_A_used_in_live_code].
Qed.

(** ** C4: the failure flag of the adaptor and the flag of the stage *)

(** C4 at a concrete input: the example with the resolver that refuses
    [B].  The adaptor validates [A], resolves its binding and set, validates
    [B], is refused, resolves nothing for it and sends the message; the
    error flag is set in the function object [std::for_each] works on and
    returns, while the flag of [doResolve], which the stage tests, is still
    clear, and the stage returns [true]. *)
Lemma adaptor_failure_flag_not_seen_by_stage :
  let doResolve := mkAdaptor EShLangFragment false in
  let typeA := mkType 1 (mkQualifier EvqUniform 2 setEnd) in
  let typeB := mkType 1 (mkQualifier EvqUniform bindingEnd setEnd) in
  let '(f', v', r', infoSink') :=
    @TResolverAdaptor.std_for_each (Recording ())
      (@recording_resolver () liveOnlyResolver) exampleSymbols
      (@std_sort insertionSort (@TOrderByPriority markerPredicates exampleSymbols)
         exampleEntries)
      doResolve (mkRecording () []) (mkInfoSink []) in
  calls r' =
    [CallValidateBinding EShLangFragment "A" typeA true true;
     CallResolveBinding EShLangFragment "A" typeA true 2;
     CallResolveSet EShLangFragment "A" typeA true 0;
     CallValidateBinding EShLangFragment "B" typeB false false] ∧
  v' = [mkEntry 1 0%nat true 2 0; mkEntry 2 1%nat false 0 0] ∧
  info infoSink' = [(EPrefixInternalError, "Invalid binding: B")] ∧
  error f' = true ∧
  error doResolve = false ∧
  returned <$> @TIoMapper.addStage markerPredicates insertionSort () liveOnlyResolver
                 EShLangFragment exampleProgram (mkInfoSink []) (Some ())
    = Some true.
Proof. by vm_compute. Qed.

(** ** C5: values the fields cannot hold *)

(** C5, as stated, fails: the resolver answers 70000 and 200; the entry of
    [B] holds these, and the occurrence of [B] ends with binding 4464 and
    set 72. *)
Lemma write_back_out_of_range :
  ¬ (∀ out e,
       @TIoMapper.addStage markerPredicates insertionSort () wideResolver
         EShLangFragment exampleProgram (mkInfoSink []) (Some ()) = Some out →
       returned out = true →
       (1%nat : ptr) ∈ treeSymbols exampleProgram →
       e ∈ varMap out →
       id e = getId (symbols exampleProgram 1%nat) →
       newBinding e ≠ -1 →
       layoutBinding (getQualifier (symbols (program out) 1%nat)) = newBinding e).
Proof.
  intros Hclaim.
  assert (∃ out,
    @TIoMapper.addStage markerPredicates insertionSort () wideResolver
      EShLangFragment exampleProgram (mkInfoSink []) (Some ()) = Some out ∧
    returned out = true ∧
    mkEntry 2 1%nat false 70000 200 ∈ varMap out ∧
    layoutBinding (getQualifier (symbols (program out) 1%nat)) = 4464 ∧
    layoutSet (getQualifier (symbols (program out) 1%nat)) = 72)
    as (out & Hadd & Hret & Hin & Hbinding & _).
  { eexists. split; [vm_compute; reflexivity |]. split; [reflexivity |].
    split; [right; left | by vm_compute]. }
  specialize (Hclaim out (mkEntry 2 1%nat false 70000 200) Hadd Hret).
  rewrite Hbinding in Hclaim. discriminate Hclaim.
  - vm_compute. left.
  - done.
  - reflexivity.
  - done.
Qed.
